(** * Code-point strings and RNGLR reductions of the dewy compiler-compiler

    A shallow embedding of [src/compiler/ustring.c] and
    [src/compiler/reduction.c].

    Conventions of the embedding:
    - a C unsigned integer of width [w] is a [Z] in [[0, 2^w)]; every
      operation that can leave the range is followed by its wrap-around;
    - [stdout] is the list of bytes written so far; a function that prints
      returns the bytes it writes, in order;
    - a [uint32_t*] handed to a function that only reads is the list of
      cells from the pointer to the end of its allocation; a read past that
      end is undefined behaviour in C and [None] here. *)

From Stdlib Require Import ZArith List Lia String Ascii DecimalString.
From stdpp Require Import base option list.

Local Open Scope Z_scope.

(** ** Fixed-width integers *)

Module Int.

Definition u8 (x : Z) : Z := x mod 2^8.
Definition u32 (x : Z) : Z := x mod 2^32.
Definition u64 (x : Z) : Z := x mod 2^64.

(** Two's-complement reading of the low [w] bits. *)
Definition signed (w : Z) (x : Z) : Z :=
  let m := x mod 2^w in
  if m <? 2^(w - 1) then m else m - 2^w.

Definition i8 (x : Z) : Z := signed 8 x.
Definition i32 (x : Z) : Z := signed 32 x.

Definition INT_MAX : Z := 2^31 - 1.
Definition INT_MIN : Z := - 2^31.
Definition UINT64_MAX : Z := 2^64 - 1.

End Int.

(** ** Standard output *)

Definition byte_of_ascii (a : ascii) : Z := Z.of_N (N_of_ascii a).

Fixpoint bytes_of_string (s : string) : list Z :=
  match s with
  | EmptyString => []
  | String a rest => byte_of_ascii a :: bytes_of_string rest
  end.

(** [putchar(b)]: the argument is converted to [unsigned char]. *)
Definition putchar (b : Z) : list Z := [Int.u8 b].

(** The [%u] and [%PRIu64] conversions of [printf]: decimal digits, no
    leading zero, a single [0] for zero. *)
Definition fmt_unsigned (x : Z) : list Z :=
  bytes_of_string (NilZero.string_of_uint (N.to_uint (Z.to_N x))).

(** ** ustring.c *)

Definition AUGMENT_CHAR : Z := 0x200000.

(** [ustring_len]: [while (string[length]) length++]. *)
Fixpoint ustring_len (string : list Z) : option nat :=
  match string with
  | [] => None
  | c :: rest => if c =? 0 then Some 0%nat else S <$> ustring_len rest
  end.

(** [ustring_cmp]: the difference [l - r] is taken in [uint32_t] and then
    widened to [int64_t]. *)
Fixpoint ustring_cmp (left right : list Z) : option Z :=
  match left, right with
  | l :: left', r :: right' =>
      if l =? 0 then Some (Int.u32 (l - r))
      else if l =? r then ustring_cmp left' right'
      else Some (Int.u32 (l - r))
  | _, _ => None
  end.

(** [put_unicode]: the bytes are held in [int8_t] and handed to [putchar]. *)
Definition put_unicode (c : Z) : list Z :=
  if c <? 0x80 then
    let b0 := Int.i8 (Z.land c 0x7F) in
    putchar b0
  else if c <? 0x800 then
    let b0 := Int.i8 (Z.lor (Z.land c 0x3F) 0x80) in
    let b1 := Int.i8 (Z.lor (Z.land (Z.shiftr c 6) 0xDF) 0xC0) in
    putchar b1 ++ putchar b0
  else if c <? 0x10000 then
    let b0 := Int.i8 (Z.lor (Z.land c 0x3F) 0x80) in
    let b1 := Int.i8 (Z.lor (Z.land (Z.shiftr c 6) 0x3F) 0x80) in
    let b2 := Int.i8 (Z.lor (Z.land (Z.shiftr c 12) 0x0F) 0xE0) in
    putchar b2 ++ putchar b1 ++ putchar b0
  else if c <=? 0x001FFFFF then
    let b0 := Int.i8 (Z.lor (Z.land c 0x3F) 0x80) in
    let b1 := Int.i8 (Z.lor (Z.land (Z.shiftr c 6) 0x3F) 0x80) in
    let b2 := Int.i8 (Z.lor (Z.land (Z.shiftr c 12) 0x3F) 0x80) in
    let b3 := Int.i8 (Z.lor (Z.land (Z.shiftr c 18) 0x07) 0xF0) in
    putchar b3 ++ putchar b2 ++ putchar b1 ++ putchar b0
  else
    bytes_of_string "ERROR: invalid unicode codepoint "
      ++ [34] ++ fmt_unsigned c ++ [34; 10].

(** [eat_utf8]: [str] is the memory at [*str_ptr], read as [uint8_t].  The
    result is the returned code point, the number of bytes [*str_ptr] has
    advanced by, and what was printed. *)
Definition ill_formed : list Z :=
  bytes_of_string "ERROR: eat_utf8() found ill-formed utf-8 character" ++ [10].

Definition eat_utf8 (str : list Z) : option (Z * nat * list Z) :=
  b0 ← str !! 0%nat;
  if b0 =? 0 then Some (0, 1%nat, [])
  else if Z.shiftr b0 7 =? 0x00 then Some (b0, 1%nat, [])
  else if Z.shiftr b0 5 =? 0x06 then
    b1 ← str !! 1%nat;
    if Z.shiftr b1 6 =? 0x02 then
      Some (Z.lor (Z.shiftl (Z.land b0 0x1F) 6) (Z.land b1 0x3F), 2%nat, [])
    else Some (0, 2%nat, ill_formed)
  else if Z.shiftr b0 4 =? 0x0E then
    b1 ← str !! 1%nat;
    if Z.shiftr b1 6 =? 0x02 then
      b2 ← str !! 2%nat;
      if Z.shiftr b2 6 =? 0x02 then
        Some (Z.lor (Z.lor (Z.shiftl (Z.land b0 0x0F) 12)
                           (Z.shiftl (Z.land b1 0x3F) 6))
                    (Z.land b2 0x3F), 3%nat, [])
      else Some (0, 3%nat, ill_formed)
    else Some (0, 2%nat, ill_formed)
  else if Z.shiftr b0 3 =? 0x1E then
    b1 ← str !! 1%nat;
    if Z.shiftr b1 6 =? 0x02 then
      b2 ← str !! 2%nat;
      if Z.shiftr b2 6 =? 0x02 then
        b3 ← str !! 3%nat;
        if Z.shiftr b3 6 =? 0x02 then
          Some (Z.lor (Z.lor (Z.lor (Z.shiftl (Z.land b0 0x07) 18)
                                    (Z.shiftl (Z.land b1 0x3F) 12))
                             (Z.shiftl (Z.land b2 0x3F) 6))
                      (Z.land b3 0x3F), 4%nat, [])
        else Some (0, 4%nat, ill_formed)
      else Some (0, 3%nat, ill_formed)
    else Some (0, 2%nat, ill_formed)
  else Some (0, 1%nat, ill_formed).

(** [unicode_str] *)
Definition unicode_str (c : Z) : list Z :=
  if c =? 0 then put_unicode 0x2300
  else if c =? AUGMENT_CHAR then put_unicode 0x1F596
  else put_unicode c.

(** [ustring_str]: [while ((c = *s++)) put_unicode(c)]. *)
Fixpoint ustring_str (s : list Z) : option (list Z) :=
  match s with
  | [] => None
  | c :: rest => if c =? 0 then Some [] else (put_unicode c ++.) <$> ustring_str rest
  end.

(** [escape_to_unicode]; the case labels are the character constants
    ['a'], ['b'], ['t'], ['n'], ['v'], ['f'], ['r']. *)
Definition escape_to_unicode (c : Z) : Z :=
  if c =? byte_of_ascii "a" then 0x7
  else if c =? byte_of_ascii "b" then 0x8
  else if c =? byte_of_ascii "t" then 0x9
  else if c =? byte_of_ascii "n" then 0xA
  else if c =? byte_of_ascii "v" then 0xB
  else if c =? byte_of_ascii "f" then 0xC
  else if c =? byte_of_ascii "r" then 0xD
  else c.

(** [utf8_length]: [while (eat_utf8(&str)) i++].  Every call of [eat_utf8]
    advances [str] by at least one byte, so the bytes that are left bound
    the number of iterations.  Only the count is kept, not the error
    messages [eat_utf8] may print on the way. *)
Fixpoint utf8_length_loop (fuel : nat) (str : list Z) (i : nat) : option nat :=
  match fuel with
  | O => None
  | S fuel =>
      '(c, n, _) ← eat_utf8 str;
      if c =? 0 then Some i else utf8_length_loop fuel (drop n str) (S i)
  end.

Definition utf8_length (str : list Z) : option nat :=
  utf8_length_loop (S (length str)) str 0.

(** [peek_unicode]: [for (size_t i = 0; i <= index; i++) c = eat_utf8(...)]
    on a copy of the pointer; the result is the last code point read and
    [*delta], the distance the copy has advanced by.  The loop body runs
    [index + 1] times; the start value of [c] is never returned.  As for
    [utf8_length], what [eat_utf8] prints is not kept. *)
Fixpoint peek_loop (n : nat) (str : list Z) (c : Z) (delta : nat)
    : option (Z * nat) :=
  match n with
  | O => Some (c, delta)
  | S n =>
      '(c, k, _) ← eat_utf8 str;
      peek_loop n (drop k str) c (delta + k)
  end.

Definition peek_unicode (str : list Z) (index : nat) : option (Z * nat) :=
  peek_loop (S index) str 0 0.

(** The [%X] conversion of [printf]: hexadecimal digits with capital
    letters, no prefix, no leading zero, a single [0] for zero. *)
Fixpoint hex_upper (d : Hexadecimal.uint) : list Z :=
  match d with
  | Hexadecimal.Nil => []
  | Hexadecimal.D0 d => byte_of_ascii "0" :: hex_upper d
  | Hexadecimal.D1 d => byte_of_ascii "1" :: hex_upper d
  | Hexadecimal.D2 d => byte_of_ascii "2" :: hex_upper d
  | Hexadecimal.D3 d => byte_of_ascii "3" :: hex_upper d
  | Hexadecimal.D4 d => byte_of_ascii "4" :: hex_upper d
  | Hexadecimal.D5 d => byte_of_ascii "5" :: hex_upper d
  | Hexadecimal.D6 d => byte_of_ascii "6" :: hex_upper d
  | Hexadecimal.D7 d => byte_of_ascii "7" :: hex_upper d
  | Hexadecimal.D8 d => byte_of_ascii "8" :: hex_upper d
  | Hexadecimal.D9 d => byte_of_ascii "9" :: hex_upper d
  | Hexadecimal.Da d => byte_of_ascii "A" :: hex_upper d
  | Hexadecimal.Db d => byte_of_ascii "B" :: hex_upper d
  | Hexadecimal.Dc d => byte_of_ascii "C" :: hex_upper d
  | Hexadecimal.Dd d => byte_of_ascii "D" :: hex_upper d
  | Hexadecimal.De d => byte_of_ascii "E" :: hex_upper d
  | Hexadecimal.Df d => byte_of_ascii "F" :: hex_upper d
  end.

Definition fmt_hex_upper (x : Z) : list Z :=
  match N.to_hex_uint (Z.to_N x) with
  | Hexadecimal.Nil => [byte_of_ascii "0"]
  | d => hex_upper d
  end.

(** [unicode_ascii_or_hex_str] *)
Definition unicode_ascii_or_hex_str (c : Z) : list Z :=
  if (0x21 <=? c) && (c <=? 0x7E) then put_unicode c
  else bytes_of_string "\x" ++ fmt_hex_upper c.

(** *** Numeric literals *)

(** Conversion of a [uint32_t] code point to the [char] parameter of the
    digit functions ([char] is signed on the x86-64 target). *)
Definition to_char (c : Z) : Z := Int.i8 c.

(** The body of the loop of [ustring_parse_base],
    [for (int64_t i = len - 1; i >= 0; i--)]; [n] is [i + 1], so that the
    loop ends at [n = 0]. *)
Fixpoint parse_loop (str : list Z) (base : Z) (base_digit_to_value : Z -> Z)
    (n : nat) (pow val : Z) : option Z :=
  match n with
  | O => Some val
  | S i =>
      c ← str !! i;
      let val := Int.u64 (val + Int.u64 (Int.u64 (base_digit_to_value (to_char c)) * pow)) in
      let pow := Int.u64 (pow * base) in
      parse_loop str base base_digit_to_value i pow val
  end.

Definition ustring_parse_base (str : list Z) (base : Z)
    (base_digit_to_value : Z -> Z) : option Z :=
  len ← ustring_len str;
  let pow := 1 in
  let val := 0 in
  parse_loop str base base_digit_to_value len pow val.

Section DigitFunctions.

(** [hex_digit_to_value] and [dec_digit_to_value] are defined in
    utilities.c. *)
Variables hex_digit_to_value dec_digit_to_value : Z -> Z.

Definition ustring_parse_hex (str : list Z) : option Z :=
  ustring_parse_base str 16 hex_digit_to_value.

Definition ustring_parse_dec (str : list Z) : option Z :=
  ustring_parse_base str 10 dec_digit_to_value.

End DigitFunctions.

(** Modelled from the spec: [dec_digit_to_value] of utilities.c is not among
    the sources; a decimal literal is evaluated digit by digit, the digit
    ['0'] + d having the value d. *)
Definition dec_digit_value (c : Z) : Z := c - byte_of_ascii "0".

(** The mathematical value of a literal, without any wrap-around: the sum
    over [i] of [f(s[i]) * base^(n-1-i)], [n] the number of digits. *)
Definition positional_value (base : Z) (f : Z -> Z) (s : list Z) : Z :=
  foldr Z.add 0
    (imap (fun i c => f c * base ^ Z.of_nat (length s - 1 - i)) s).

(** *** Allocated code-point strings *)

(** The heap of [uint32_t] arrays: one list of cells per allocation.  A
    pointer is an allocation and an offset into it. *)
Module Heap.

Abbreviation heap := (list (list Z)).

Record ptr := mk_ptr { blk : nat; off : nat }.

Definition next (p : ptr) : ptr := {| blk := blk p; off := S (off p) |}.

(** The memory a pointer points into, from the pointer on. *)
Definition view (h : heap) (p : ptr) : option (list Z) :=
  drop (off p) <$> h !! blk p.

Definition load (h : heap) (p : ptr) : option Z :=
  cells ← h !! blk p; cells !! off p.

Definition store (h : heap) (p : ptr) (v : Z) : option heap :=
  cells ← h !! blk p;
  if decide (off p < length cells)%nat
  then Some (<[blk p := <[off p := v]> cells]> h)
  else None.

Definition SIZE_MAX : Z := 2^64 - 1.

(** Every allocation fits the address space. *)
Definition fits_address_space (h : heap) : Prop :=
  Forall (fun cells : list Z => 4 * Z.of_nat (length cells) <= SIZE_MAX) h.

Section Clone.

(** [malloc] returns storage whose contents are indeterminate: cell [i] of
    the new allocation holds [junk i].  The request always succeeds (the
    callers do not check for a null pointer). *)
Variable junk : nat -> Z.

Definition malloc (h : heap) (bytes : Z) : heap * ptr :=
  (h ++ [map junk (seq 0 (Z.to_nat (bytes / 4)))], {| blk := length h; off := 0 |}).

(** The copy loop of [ustring_clone]: each iteration stores the cell read
    through [string] through [ptr], advances both, and ends the loop when
    the cell stored is zero. *)
Fixpoint clone_loop (fuel : nat) (h : heap) (ptr string : ptr) : option heap :=
  match fuel with
  | O => None
  | S fuel =>
      c ← load h string;
      h ← store h ptr c;
      if c =? 0 then Some h else clone_loop fuel h (next ptr) (next string)
  end.

(** [ustring_clone]; each iteration of the copy loop reads one more cell of
    the source allocation, so the cells from [string] on bound the number
    of iterations. *)
Definition ustring_clone (h : heap) (string : ptr) : option (heap * ptr) :=
  cells ← view h string;
  length ← ustring_len cells;
  let '(h, copy) := malloc h (Int.u64 ((Z.of_nat length + 1) * 4)) in
  let ptr := copy in
  h ← clone_loop (List.length cells) h ptr string;
  Some (h, copy).

(** [ustring_from_unicode] *)
Definition ustring_from_unicode (h : heap) (c : Z) : option (heap * ptr) :=
  let '(h, str) := malloc h (Int.u64 (2 * 4)) in
  h ← store h str c;
  h ← store h (next str) 0;
  Some (h, str).

(** The first loop of [ustring_charstar_substr],
    [for (int i = 0; i < start; i++) eat_utf8(&str)]; [n] is the number of
    iterations left. *)
Fixpoint substr_skip (n : nat) (str : list Z) : option (list Z) :=
  match n with
  | O => Some str
  | S n => '(_, k, _) ← eat_utf8 str; substr_skip n (drop k str)
  end.

(** Its second loop, [for (int i = 0; i < length; i++) *ptr++ = eat_utf8(&str)]. *)
Fixpoint substr_copy (n : nat) (h : heap) (ptr : ptr) (str : list Z)
    : option (heap * Heap.ptr) :=
  match n with
  | O => Some (h, ptr)
  | S n =>
      '(c, k, _) ← eat_utf8 str;
      h ← store h ptr c;
      substr_copy n h (next ptr) (drop k str)
  end.

(** [ustring_charstar_substr]; [str] is the memory at the [char*], read as
    bytes.  [stop - start + 1] is computed in [int] and converted to
    [size_t]; an overflow of it, or of the [int] counter of the second
    loop, is undefined. *)
Definition ustring_charstar_substr (h : heap) (str : list Z) (start stop : Z)
    : option (heap * ptr) :=
  if decide (Int.INT_MIN <= stop - start + 1 <= Int.INT_MAX) then
    let length := Int.u64 (stop - start + 1) in
    let '(h, substr) := malloc h (Int.u64 ((length + 1) * 4)) in
    let ptr := substr in
    str ← substr_skip (Z.to_nat start) str;
    if decide (length <= Int.INT_MAX) then
      '(h, ptr) ← substr_copy (Z.to_nat length) h ptr str;
      h ← store h ptr 0;
      Some (h, substr)
    else None
  else None.

End Clone.

(** [ustring_len] and [ustring_cmp] called on pointers into the heap. *)
Definition ustring_len_at (h : heap) (p : ptr) : option nat :=
  view h p ≫= ustring_len.

Definition ustring_cmp_at (h : heap) (left right : ptr) : option Z :=
  l ← view h left; r ← view h right; ustring_cmp l r.

End Heap.

(** ** reduction.c *)

Module Reduction.

Record reduction := mk_reduction { head_idx : Z; length : Z }.

(** An [obj] of the symbol table; [data] is the memory its [data] pointer
    points into, for a symbol the zero-terminated name.  The [type] tag of
    an [obj] is read by [obj_str] only. *)
Record obj := mk_obj { data : list Z }.

(** The state the functions of reduction.c run in: the allocated
    [reduction] structs ([None]: allocated, not yet written), addressed by
    their index, and standard output. *)
Record world := mk_world {
  heap : list (option reduction);
  stdout : list Z
}.

(** A computation reads and updates the world, or has undefined
    behaviour ([None]). *)
Definition M (A : Type) : Type := world -> option (A * world).

#[global] Instance M_ret : MRet M := fun A (x : A) w => Some (x, w).
#[global] Instance M_bind : MBind M := fun A B (f : A -> M B) (m : M A) w =>
  match m w with
  | Some (x, w') => f x w'
  | None => None
  end.

Definition undefined {A : Type} : M A := fun _ => None.

Definition lift {A : Type} (o : option A) : M A :=
  match o with Some x => mret x | None => undefined end.

Definition malloc : M nat := fun w =>
  Some (List.length (heap w), {| heap := heap w ++ [None]; stdout := stdout w |}).

Definition load (r : nat) : M reduction := fun w =>
  match heap w !! r with
  | Some (Some v) => Some (v, w)
  | _ => None
  end.

Definition store (r : nat) (v : reduction) : M unit := fun w =>
  if decide (r < List.length (heap w))%nat
  then Some (tt, {| heap := <[r := Some v]> (heap w); stdout := stdout w |})
  else None.

Definition printf (bytes : list Z) : M unit := fun w =>
  Some (tt, {| heap := heap w; stdout := stdout w ++ bytes |}).

(** [int + int]; signed overflow is undefined. *)
Definition int_add (a b : Z) : M Z :=
  if decide (Int.INT_MIN <= a + b <= Int.INT_MAX) then mret (a + b) else undefined.

(** What [snprintf("", 0, ...)] returns: the number of bytes the formatted
    text has. *)
Definition snprintf_0 (formatted : list Z) : Z := Z.of_nat (List.length formatted).

Definition run {A : Type} (m : M A) (w : world) : option world := snd <$> m w.
Definition eval {A : Type} (m : M A) (w : world) : option A := fst <$> m w.

(** What a computation prints when started in [w]. *)
Definition printed {A : Type} (m : M A) (w : world) : option (list Z) :=
  (fun w' => drop (List.length (stdout w)) (stdout w')) <$> run m w.

(** A computation that leaves every allocated [reduction] as it is. *)
Definition read_only {A : Type} (m : M A) : Prop :=
  forall (w w' : world) (x : A), m w = Some (x, w') -> heap w' = heap w.

(** Whenever [m] returns from [w], the record at [r] is the one [w] had
    there, and so is every other allocated record. *)
Definition keeps {A : Type} (m : M A) (w : world) (r : nat) (red : reduction) : Prop :=
  forall (x : A) (w' : world),
    m w = Some (x, w') ->
    eval (load r) w' = Some red /\ heap w' = heap w.

(** A computation that changes nothing: no record and no output. *)
Definition query {A : Type} (m : M A) : Prop :=
  forall (w w' : world) (x : A), m w = Some (x, w') -> w' = w.

Section Reduction.

(** The symbol table of metaparser.c, [obj_str] of object.c and
    [hash_uint_sequence] of utilities.c.  [obj_str] prints; its result is
    the bytes printed. *)
Variable metaparser_get_symbol : Z -> obj.
Variable obj_str : obj -> option (list Z).
Variable hash_uint_sequence : list Z -> Z -> Z.

Definition new_reduction (head_idx length : Z) : M nat :=
  r ← malloc;
  store r {| head_idx := head_idx; length := length |};;
  mret r.

Definition reduction_str (r : nat) : M unit :=
  printf (bytes_of_string "R(");;
  red ← load r;
  let head := metaparser_get_symbol (head_idx red) in
  out ← lift (obj_str head);
  printf out;;
  red ← load r;
  printf (bytes_of_string ", " ++ fmt_unsigned (length red) ++ bytes_of_string ")").

Definition reduction_strlen (r : nat) : M Z :=
  let width := 0 in
  red ← load r;
  let head := metaparser_get_symbol (head_idx red) in
  len ← lift (ustring_len (data head));
  let width := Int.i32 (Int.u64 (width + Z.of_nat len)) in
  red ← load r;
  width ← int_add width
    (snprintf_0 (bytes_of_string "R(, " ++ fmt_unsigned (length red)
                   ++ bytes_of_string ")"));
  mret width.

Definition reduction_repr (r : nat) : M unit :=
  red ← load r;
  printf (bytes_of_string "reduction{head_idx: " ++ fmt_unsigned (head_idx red)
            ++ bytes_of_string ", length: " ++ fmt_unsigned (length red)
            ++ bytes_of_string "}").

Definition reduction_equals (left right : nat) : M bool :=
  l ← load left;
  r ← load right;
  mret ((length l =? length r) && (head_idx l =? head_idx r)).

Definition reduction_hash (r : nat) : M Z :=
  red ← load r;
  let seq := [length red; head_idx red] in
  mret (hash_uint_sequence seq 2).

End Reduction.

(** Modelled from the spec: [obj_str] of object.c is not among the sources.
    A symbol has a code-point-string name and [reduction_str] renders as
    [R(HeadName, length)]: for a symbol, [obj_str] prints the name its
    [data] points to, as [ustring_str] does. *)
Definition obj_str_name (o : obj) : option (list Z) := ustring_str (data o).

End Reduction.

(** * Properties *)

(** ** Bit operations as arithmetic *)

Section BitArith.

Lemma land_disjoint (a b k : Z) :
  0 <= k -> a mod 2^k = 0 -> 0 <= b < 2^k -> Z.land a b = 0.
Proof.
  intros Hk Ha Hb. apply Z.bits_inj'. intros n Hn.
  rewrite Z.land_spec, Z.bits_0.
  destruct (Z.lt_ge_cases n k) as [Hlt | Hge].
  - rewrite <- (Z.mod_pow2_bits_low a k n) by lia.
    rewrite Ha, Z.bits_0. reflexivity.
  - rewrite <- (Z.mod_small b (2^k)) by lia.
    rewrite Z.mod_pow2_bits_high by lia. apply andb_false_r.
Qed.

Lemma lor_disjoint (a b k : Z) :
  0 <= k -> a mod 2^k = 0 -> 0 <= b < 2^k -> Z.lor a b = a + b.
Proof.
  intros Hk Ha Hb.
  rewrite <- (Z.lxor_lor a b) by (eapply land_disjoint; eauto).
  symmetry. apply Z.add_nocarry_lxor. eapply land_disjoint; eauto.
Qed.

Lemma lor_disjoint_r (a b k : Z) :
  0 <= k -> a mod 2^k = 0 -> 0 <= b < 2^k -> Z.lor b a = b + a.
Proof.
  intros. rewrite Z.lor_comm, Z.add_comm. eapply lor_disjoint; eauto.
Qed.

Lemma lor_add (a b d : Z) (k : Z) :
  0 <= k -> d = 2^k -> a mod d = 0 -> 0 <= b < d -> Z.lor a b = a + b.
Proof. intros Hk ->. apply lor_disjoint, Hk. Qed.

Lemma land_0xDF (x : Z) : 0 <= x < 32 -> Z.land x 0xDF = x.
Proof.
  intros Hx. rewrite <- (Z.mod_small x (2^5)) at 1 by lia.
  rewrite <- Z.land_ones, <- Z.land_assoc by lia.
  change (Z.land (Z.ones 5) 0xDF) with (Z.ones 5).
  rewrite Z.land_ones by lia. apply Z.mod_small. lia.
Qed.

Lemma u8_i8 (v : Z) : Int.u8 (Int.i8 v) = Int.u8 v.
Proof.
  unfold Int.u8, Int.i8, Int.signed.
  change (2^8) with 256. change (2^(8-1)) with 128.
  destruct (v mod 256 <? 128).
  - apply Z.mod_mod. lia.
  - rewrite <- Zminus_mod_idemp_r, Z.mod_same, Z.sub_0_r by lia.
    apply Z.mod_mod. lia.
Qed.

Lemma putchar_i8 (v : Z) : 0 <= v < 256 -> putchar (Int.i8 v) = [v].
Proof.
  intros Hv. unfold putchar. rewrite u8_i8. unfold Int.u8.
  rewrite Z.mod_small; [reflexivity | lia].
Qed.

End BitArith.

(** Masks with [2^k - 1], shifts and disjoint ors become [mod], [/], [*]
    and [+]. *)
Lemma land_0x7F (x : Z) : Z.land x 0x7F = x mod 128.
Proof. apply (Z.land_ones x 7). lia. Qed.
Lemma land_0x3F (x : Z) : Z.land x 0x3F = x mod 64.
Proof. apply (Z.land_ones x 6). lia. Qed.
Lemma land_0x1F (x : Z) : Z.land x 0x1F = x mod 32.
Proof. apply (Z.land_ones x 5). lia. Qed.
Lemma land_0x0F (x : Z) : Z.land x 0x0F = x mod 16.
Proof. apply (Z.land_ones x 4). lia. Qed.
Lemma land_0x07 (x : Z) : Z.land x 0x07 = x mod 8.
Proof. apply (Z.land_ones x 3). lia. Qed.

Lemma shiftr_div (x n d : Z) : 0 <= n -> d = 2^n -> Z.shiftr x n = x / d.
Proof. intros Hn ->. apply Z.shiftr_div_pow2, Hn. Qed.

Lemma shiftl_mul (x n d : Z) : 0 <= n -> d = 2^n -> Z.shiftl x n = x * d.
Proof. intros Hn ->. apply Z.shiftl_mul_pow2, Hn. Qed.

Ltac bits_to_arith :=
  rewrite ?land_0x7F, ?land_0x3F, ?land_0x1F, ?land_0x0F, ?land_0x07;
  rewrite ?(shiftr_div _ 3 8), ?(shiftr_div _ 4 16), ?(shiftr_div _ 5 32),
    ?(shiftr_div _ 6 64), ?(shiftr_div _ 7 128), ?(shiftr_div _ 12 4096),
    ?(shiftr_div _ 18 262144) by (reflexivity || lia);
  rewrite ?(shiftl_mul _ 6 64), ?(shiftl_mul _ 12 4096),
    ?(shiftl_mul _ 18 262144) by (reflexivity || lia);
  rewrite ?land_0x7F, ?land_0x3F, ?land_0x1F, ?land_0x0F, ?land_0x07.

(** ** The bytes [put_unicode] emits *)

Section Utf8.

Lemma put_unicode_1 (c : Z) : 0 <= c < 0x80 -> put_unicode c = [c].
Proof.
  intros Hc. unfold put_unicode.
  destruct (Z.ltb_spec c 0x80); [| lia].
  bits_to_arith. rewrite Z.mod_small by lia. apply putchar_i8. lia.
Qed.

Lemma put_unicode_2 (c : Z) :
  0x80 <= c < 0x800 -> put_unicode c = [c / 64 + 192; c mod 64 + 128].
Proof.
  intros Hc. unfold put_unicode.
  destruct (Z.ltb_spec c 0x80); [lia |].
  destruct (Z.ltb_spec c 0x800); [| lia].
  bits_to_arith.
  assert (0 <= c / 64 < 32) by (Z.div_mod_to_equations; lia).
  assert (0 <= c mod 64 < 64) by (Z.div_mod_to_equations; lia).
  rewrite land_0xDF by lia.
  rewrite (lor_disjoint_r 0x80 (c mod 64) 7) by (reflexivity || lia).
  rewrite (lor_disjoint_r 0xC0 (c / 64) 6) by (reflexivity || lia).
  rewrite !putchar_i8 by lia. reflexivity.
Qed.

Lemma put_unicode_3 (c : Z) :
  0x800 <= c < 0x10000 ->
  put_unicode c = [c / 4096 + 224; (c / 64) mod 64 + 128; c mod 64 + 128].
Proof.
  intros Hc. unfold put_unicode.
  destruct (Z.ltb_spec c 0x80); [lia |].
  destruct (Z.ltb_spec c 0x800); [lia |].
  destruct (Z.ltb_spec c 0x10000); [| lia].
  bits_to_arith.
  assert (0 <= c / 4096 < 16) by (Z.div_mod_to_equations; lia).
  assert (0 <= (c / 64) mod 64 < 64) by (Z.div_mod_to_equations; lia).
  assert (0 <= c mod 64 < 64) by (Z.div_mod_to_equations; lia).
  rewrite (Z.mod_small (c / 4096) 16) by lia.
  rewrite (lor_disjoint_r 0x80 (c mod 64) 7) by (reflexivity || lia).
  rewrite (lor_disjoint_r 0x80 ((c / 64) mod 64) 7) by (reflexivity || lia).
  rewrite (lor_disjoint_r 0xE0 (c / 4096) 5) by (reflexivity || lia).
  rewrite !putchar_i8 by lia. reflexivity.
Qed.

Lemma put_unicode_4 (c : Z) :
  0x10000 <= c < 0x200000 ->
  put_unicode c =
    [c / 262144 + 240; (c / 4096) mod 64 + 128;
     (c / 64) mod 64 + 128; c mod 64 + 128].
Proof.
  intros Hc. unfold put_unicode.
  destruct (Z.ltb_spec c 0x80); [lia |].
  destruct (Z.ltb_spec c 0x800); [lia |].
  destruct (Z.ltb_spec c 0x10000); [lia |].
  destruct (Z.leb_spec c 0x001FFFFF); [| lia].
  bits_to_arith.
  assert (0 <= c / 262144 < 8) by (Z.div_mod_to_equations; lia).
  assert (0 <= (c / 4096) mod 64 < 64) by (Z.div_mod_to_equations; lia).
  assert (0 <= (c / 64) mod 64 < 64) by (Z.div_mod_to_equations; lia).
  assert (0 <= c mod 64 < 64) by (Z.div_mod_to_equations; lia).
  rewrite (Z.mod_small (c / 262144) 8) by lia.
  rewrite (lor_disjoint_r 0x80 (c mod 64) 7) by (reflexivity || lia).
  rewrite (lor_disjoint_r 0x80 ((c / 64) mod 64) 7) by (reflexivity || lia).
  rewrite (lor_disjoint_r 0x80 ((c / 4096) mod 64) 7) by (reflexivity || lia).
  rewrite (lor_disjoint_r 0xF0 (c / 262144) 4) by (reflexivity || lia).
  rewrite !putchar_i8 by lia. reflexivity.
Qed.

(** Decide the next byte test of [eat_utf8] by arithmetic. *)
Ltac byte_test :=
  match goal with
  | |- context [Z.eqb ?x ?y] =>
      destruct (Z.eqb_spec x y); [| try (exfalso; Z.div_mod_to_equations; lia)];
      try (exfalso; Z.div_mod_to_equations; lia)
  end.

Lemma eat_utf8_1 (c : Z) (rest : list Z) :
  0 <= c < 0x80 -> eat_utf8 (c :: rest) = Some (c, 1%nat, []).
Proof.
  intros Hc. unfold eat_utf8. cbn [lookup list_lookup mbind option_bind].
  bits_to_arith. destruct (Z.eqb_spec c 0) as [-> | Hnz]; [reflexivity |].
  byte_test. reflexivity.
Qed.

Lemma eat_utf8_2 (c : Z) (rest : list Z) :
  0x80 <= c < 0x800 ->
  eat_utf8 (c / 64 + 192 :: c mod 64 + 128 :: rest) = Some (c, 2%nat, []).
Proof.
  intros Hc. unfold eat_utf8. cbn [lookup list_lookup mbind option_bind].
  bits_to_arith. do 4 byte_test.
  rewrite (lor_add (_ * 64) _ 64 6) by (reflexivity || Z.div_mod_to_equations; lia).
  do 3 f_equal. Z.div_mod_to_equations; lia.
Qed.

Lemma eat_utf8_3 (c : Z) (rest : list Z) :
  0x800 <= c < 0x10000 ->
  eat_utf8 (c / 4096 + 224 :: (c / 64) mod 64 + 128 :: c mod 64 + 128 :: rest)
  = Some (c, 3%nat, []).
Proof.
  intros Hc. unfold eat_utf8. cbn [lookup list_lookup mbind option_bind].
  bits_to_arith. do 6 byte_test.
  rewrite (lor_add (_ * 4096) (_ * 64) 4096 12)
    by (reflexivity || Z.div_mod_to_equations; lia).
  rewrite (lor_add (_ + _) _ 64 6) by (reflexivity || Z.div_mod_to_equations; lia).
  do 3 f_equal. Z.div_mod_to_equations; lia.
Qed.

Lemma eat_utf8_4 (c : Z) (rest : list Z) :
  0x10000 <= c < 0x200000 ->
  eat_utf8 (c / 262144 + 240 :: (c / 4096) mod 64 + 128
              :: (c / 64) mod 64 + 128 :: c mod 64 + 128 :: rest)
  = Some (c, 4%nat, []).
Proof.
  intros Hc. unfold eat_utf8. cbn [lookup list_lookup mbind option_bind].
  bits_to_arith. do 8 byte_test.
  rewrite (lor_add (_ * 262144) (_ * 4096) 262144 18)
    by (reflexivity || Z.div_mod_to_equations; lia).
  rewrite (lor_add (_ + _) (_ * 64) 4096 12)
    by (reflexivity || Z.div_mod_to_equations; lia).
  rewrite (lor_add (_ + _) _ 64 6) by (reflexivity || Z.div_mod_to_equations; lia).
  do 3 f_equal. Z.div_mod_to_equations; lia.
Qed.

(** The encoder accepts exactly the code points below [AUGMENT_CHAR] and
    emits between one and four bytes for each. *)
Lemma put_unicode_length (c : Z) :
  0 <= c < AUGMENT_CHAR -> (1 <= length (put_unicode c) <= 4)%nat.
Proof.
  unfold AUGMENT_CHAR. intros Hc.
  destruct (Z.lt_ge_cases c 0x80); [rewrite put_unicode_1 by lia; simpl; lia |].
  destruct (Z.lt_ge_cases c 0x800); [rewrite put_unicode_2 by lia; simpl; lia |].
  destruct (Z.lt_ge_cases c 0x10000); [rewrite put_unicode_3 by lia; simpl; lia |].
  rewrite put_unicode_4 by lia; simpl; lia.
Qed.

Lemma eat_utf8_encoded (c : Z) (rest : list Z) :
  0 <= c < AUGMENT_CHAR ->
  eat_utf8 (put_unicode c ++ rest) = Some (c, length (put_unicode c), []).
Proof.
  unfold AUGMENT_CHAR. intros Hc.
  destruct (Z.lt_ge_cases c 0x80);
    [rewrite put_unicode_1 by lia; apply eat_utf8_1; lia |].
  destruct (Z.lt_ge_cases c 0x800);
    [rewrite put_unicode_2 by lia; apply eat_utf8_2; lia |].
  destruct (Z.lt_ge_cases c 0x10000);
    [rewrite put_unicode_3 by lia; apply eat_utf8_3; lia |].
  rewrite put_unicode_4 by lia; apply eat_utf8_4; lia.
Qed.

(** C9: decoding the bytes [put_unicode] emits for a code point below
    [0x200000] returns that code point, advances the input pointer by
    exactly the number of bytes emitted, and prints nothing; this holds
    whatever follows the emitted bytes in memory. *)
Theorem eat_utf8_put_unicode (c : Z) (rest : list Z) :
  0 <= c < 0x200000 ->
  eat_utf8 (put_unicode c ++ rest) = Some (c, length (put_unicode c), []).
Proof. apply eat_utf8_encoded. Qed.

Lemma eat_utf8_put_unicode_witness :
  0 <= 0x1F596 < 0x200000 /\
  eat_utf8 (put_unicode 0x1F596 ++ [65; 0])
  = Some (0x1F596, length (put_unicode 0x1F596), []).
Proof. split; [lia | apply (eat_utf8_put_unicode 0x1F596 [65; 0]); lia]. Defined.

(** C7: [AUGMENT_CHAR] is [0x200000], that is [2^21]; [put_unicode]
    encodes every code point below it and rejects it and everything above
    with an error message.  [unicode_str] prints U+2300 (the diameter sign)
    for code point 0, U+1F596 for [AUGMENT_CHAR], and for every other code
    point exactly what [put_unicode] prints. *)
Theorem unicode_str_markers (c : Z) :
  AUGMENT_CHAR = 0x200000 /\ AUGMENT_CHAR = 2^21 /\
  (0 <= c < AUGMENT_CHAR ->
     (1 <= length (put_unicode c) <= 4)%nat /\
     eat_utf8 (put_unicode c) = Some (c, length (put_unicode c), [])) /\
  (AUGMENT_CHAR <= c ->
     put_unicode c = bytes_of_string "ERROR: invalid unicode codepoint "
                       ++ [34] ++ fmt_unsigned c ++ [34; 10]) /\
  unicode_str 0 = put_unicode 0x2300 /\
  unicode_str 0 = [0xE2; 0x8C; 0x80] /\
  unicode_str AUGMENT_CHAR = put_unicode 0x1F596 /\
  unicode_str AUGMENT_CHAR = [0xF0; 0x9F; 0x96; 0x96] /\
  (c <> 0 -> c <> AUGMENT_CHAR -> unicode_str c = put_unicode c).
Proof.
  repeat split; try reflexivity.
  - apply put_unicode_length; assumption.
  - apply put_unicode_length; assumption.
  - rewrite <- (app_nil_r (put_unicode c)) at 1.
    apply eat_utf8_encoded; assumption.
  - unfold AUGMENT_CHAR. intros Hc. unfold put_unicode.
    destruct (Z.ltb_spec c 0x80); [lia |].
    destruct (Z.ltb_spec c 0x800); [lia |].
    destruct (Z.ltb_spec c 0x10000); [lia |].
    destruct (Z.leb_spec c 0x001FFFFF); [lia | reflexivity].
  - intros Hz Ha. unfold unicode_str.
    destruct (Z.eqb_spec c 0); [contradiction |].
    destruct (Z.eqb_spec c AUGMENT_CHAR); [contradiction | reflexivity].
Qed.

Lemma unicode_str_markers_witness :
  unicode_str 0x41 = put_unicode 0x41 /\
  put_unicode AUGMENT_CHAR
  = bytes_of_string "ERROR: invalid unicode codepoint "
      ++ [34] ++ bytes_of_string "2097152" ++ [34; 10] /\
  (1 <= length (put_unicode 0x41) <= 4)%nat.
Proof.
  split; [| split].
  - apply (unicode_str_markers 0x41); unfold AUGMENT_CHAR; lia.
  - apply (unicode_str_markers AUGMENT_CHAR); unfold AUGMENT_CHAR; lia.
  - apply (unicode_str_markers 0x41); unfold AUGMENT_CHAR; lia.
Defined.

End Utf8.

(** ** Escape characters *)

(** C2: the escape letters a, b, t, n, v, f, r map to U+07, U+08, U+09,
    U+0A, U+0B, U+0C, U+0D; every other code point maps to itself, among
    them backslash, the two quotes, the brackets and the hyphen. *)
Theorem escape_to_unicode_spec (X : Z) :
  escape_to_unicode (byte_of_ascii "a") = 0x07 /\
  escape_to_unicode (byte_of_ascii "b") = 0x08 /\
  escape_to_unicode (byte_of_ascii "t") = 0x09 /\
  escape_to_unicode (byte_of_ascii "n") = 0x0A /\
  escape_to_unicode (byte_of_ascii "v") = 0x0B /\
  escape_to_unicode (byte_of_ascii "f") = 0x0C /\
  escape_to_unicode (byte_of_ascii "r") = 0x0D /\
  (~ In X (map byte_of_ascii ["a"; "b"; "t"; "n"; "v"; "f"; "r"]%char) ->
   escape_to_unicode X = X) /\
  Forall (fun c => escape_to_unicode c = c)
    (34 :: map byte_of_ascii ["\"; "'"; "["; "]"; "-"]%char).
Proof.
  repeat split; try reflexivity.
  - intros HX. unfold escape_to_unicode.
    repeat match goal with
    | |- context [Z.eqb X ?k] =>
        destruct (Z.eqb_spec X k) as [-> | _];
        [exfalso; apply HX; cbn; tauto |]
    end.
    reflexivity.
  - repeat constructor.
Qed.

Lemma escape_to_unicode_spec_witness :
  escape_to_unicode (byte_of_ascii "\") = byte_of_ascii "\".
Proof.
  apply (escape_to_unicode_spec (byte_of_ascii "\")).
  cbn. intros H.
  repeat (destruct H as [H | H]; [discriminate H |]).
  exact H.
Defined.

(** ** Zero-terminated strings *)

Section Ustring.

Lemma ustring_len_terminated (s rest : list Z) :
  Forall (fun c => c <> 0) s -> ustring_len (s ++ 0 :: rest) = Some (length s).
Proof.
  induction 1 as [| c s Hc _ IH]; [reflexivity |].
  cbn [app ustring_len]. destruct (Z.eqb_spec c 0); [contradiction |].
  rewrite IH. reflexivity.
Qed.

Lemma ustring_cmp_equal (s r1 r2 : list Z) :
  Forall (fun c => c <> 0) s ->
  ustring_cmp (s ++ 0 :: r1) (s ++ 0 :: r2) = Some 0.
Proof.
  induction 1 as [| c s Hc _ IH]; [reflexivity |].
  cbn [app ustring_cmp]. destruct (Z.eqb_spec c 0); [contradiction |].
  rewrite Z.eqb_refl. exact IH.
Qed.

End Ustring.

(** ** Numeric literals *)

Section Positional.

Variables (base : Z) (f : Z -> Z).

Lemma positional_value_cons (c : Z) (s : list Z) :
  positional_value base f (c :: s)
  = f c * base ^ Z.of_nat (length s) + positional_value base f s.
Proof.
  unfold positional_value. cbn [imap foldr length].
  f_equal.
  - do 3 f_equal. lia.
  - f_equal. apply imap_ext. intros i x _. cbn. do 3 f_equal. lia.
Qed.

Lemma positional_value_snoc (s : list Z) (c : Z) :
  positional_value base f (s ++ [c]) = base * positional_value base f s + f c.
Proof.
  induction s as [| a s IH].
  - unfold positional_value. cbn. lia.
  - cbn [app]. rewrite !positional_value_cons, IH, length_app.
    cbn [length]. rewrite Nat.add_1_r, Nat2Z.inj_succ, Z.pow_succ_r by lia.
    ring.
Qed.

End Positional.

Section ParseBase.

Variables (base : Z) (f : Z -> Z).

#[local] Instance eqm64_equiv : Equivalence (eqm (2^64)) := eqm_setoid (2^64).
#[local] Instance eqm64_add :
  Proper (eqm (2^64) ==> eqm (2^64) ==> eqm (2^64)) Z.add := Zplus_eqm (2^64).
#[local] Instance eqm64_mul :
  Proper (eqm (2^64) ==> eqm (2^64) ==> eqm (2^64)) Z.mul := Zmult_eqm (2^64).

Lemma u64_eqm (a b : Z) : eqm (2^64) a b -> Int.u64 a = Int.u64 b.
Proof. intros H. exact H. Qed.

Lemma u64_range (a : Z) : 0 <= Int.u64 a <= Int.UINT64_MAX.
Proof.
  unfold Int.u64, Int.UINT64_MAX.
  pose proof (Z.mod_pos_bound a (2^64)). lia.
Qed.

Lemma u64_step (val g pow P : Z) :
  Int.u64 (Int.u64 (val + Int.u64 (Int.u64 g * pow)) + Int.u64 (pow * base) * P)
  = Int.u64 (val + pow * (base * P + g)).
Proof.
  apply u64_eqm. unfold Int.u64. rewrite !(Zmod_eqm (2^64)).
  unfold eqm. f_equal. ring.
Qed.

(** The loop from index [n - 1] down to [0] adds the value of the first [n]
    digits, scaled by the power reached so far. *)
Lemma parse_loop_spec (str : list Z) (n : nat) (pow val : Z) :
  (n <= length str)%nat ->
  0 <= val <= Int.UINT64_MAX ->
  parse_loop str base f n pow val
  = Some (Int.u64 (val + pow * positional_value base (fun c => f (to_char c))
                                 (take n str))).
Proof.
  revert pow val. induction n as [| i IH]; intros pow val Hn Hval.
  - cbn. unfold positional_value. cbn.
    rewrite Z.mul_0_r, Z.add_0_r. unfold Int.u64.
    rewrite Z.mod_small; [reflexivity | unfold Int.UINT64_MAX in Hval; lia].
  - destruct (lookup_lt_is_Some_2 str i) as [c Hc]; [lia |].
    cbn [parse_loop]. rewrite Hc. cbn [mbind option_bind].
    rewrite IH by (lia || apply u64_range).
    rewrite (take_S_r _ _ _ Hc), positional_value_snoc.
    f_equal. apply u64_step.
Qed.

Lemma ustring_parse_base_value (s rest : list Z) :
  Forall (fun c => c <> 0) s ->
  ustring_parse_base (s ++ 0 :: rest) base f
  = Some (Int.u64 (positional_value base (fun c => f (to_char c)) s)).
Proof.
  intros Hs. unfold ustring_parse_base.
  rewrite (ustring_len_terminated s rest Hs). cbn [mbind option_bind].
  rewrite parse_loop_spec.
  - rewrite take_app_length. f_equal. f_equal. lia.
  - rewrite length_app. lia.
  - unfold Int.UINT64_MAX. lia.
Qed.

(** On code points below 128 the conversion to [char] changes nothing. *)
Lemma to_char_ascii (c : Z) : 0 <= c < 128 -> to_char c = c.
Proof.
  intros Hc. unfold to_char, Int.i8, Int.signed.
  change (2^8) with 256. change (2^(8-1)) with 128.
  rewrite Z.mod_small by lia.
  destruct (Z.ltb_spec c 128); [reflexivity | lia].
Qed.

Lemma positional_value_ascii (s : list Z) :
  Forall (fun c => 0 < c < 128) s ->
  positional_value base (fun c => f (to_char c)) s = positional_value base f s.
Proof.
  induction 1 as [| c s Hc _ IH]; [reflexivity |].
  rewrite !positional_value_cons, IH, to_char_ascii by lia. reflexivity.
Qed.

End ParseBase.

Lemma ascii_nonzero (s : list Z) :
  Forall (fun c => 0 < c < 128) s -> Forall (fun c => c <> 0) s.
Proof. intros H. eapply Forall_impl; [exact H |]. cbn. intros c Hc. lia. Qed.

(** C4: [ustring_parse_base] returns the positional value of the digits,
    the sum over [i] of [f(s[i]) * base^(n-1-i)], modulo [2^64].  The digit
    function receives each code point converted to [char], which is the
    code point itself for the code points below 128, among them all
    digits; [ustring_parse_dec] and [ustring_parse_hex] are the instances
    with base 10 and base 16. *)
Theorem ustring_parse_base_positional
    (s rest : list Z) (base : Z) (f hex_digit_to_value dec_digit_to_value : Z -> Z) :
  Forall (fun c => c <> 0) s ->
  ustring_parse_base (s ++ 0 :: rest) base f
  = Some (positional_value base (fun c => f (to_char c)) s mod 2^64) /\
  (Forall (fun c => 0 < c < 128) s ->
   ustring_parse_base (s ++ 0 :: rest) base f
   = Some (positional_value base f s mod 2^64) /\
   ustring_parse_dec dec_digit_to_value (s ++ 0 :: rest)
   = Some (positional_value 10 dec_digit_to_value s mod 2^64) /\
   ustring_parse_hex hex_digit_to_value (s ++ 0 :: rest)
   = Some (positional_value 16 hex_digit_to_value s mod 2^64)) /\
  ustring_parse_dec dec_digit_to_value (s ++ 0 :: rest)
  = ustring_parse_base (s ++ 0 :: rest) 10 dec_digit_to_value /\
  ustring_parse_hex hex_digit_to_value (s ++ 0 :: rest)
  = ustring_parse_base (s ++ 0 :: rest) 16 hex_digit_to_value.
Proof.
  intros Hs. split; [apply ustring_parse_base_value, Hs |].
  split; [| split; reflexivity].
  intros Hascii. unfold ustring_parse_dec, ustring_parse_hex.
  rewrite !ustring_parse_base_value, !positional_value_ascii by assumption.
  repeat split.
Qed.

Lemma ustring_parse_base_positional_witness :
  ustring_parse_base (bytes_of_string "1234" ++ [0]) 10 dec_digit_value
  = Some 1234 /\
  ustring_parse_dec dec_digit_value (bytes_of_string "1234" ++ [0]) = Some 1234.
Proof.
  assert (H0 : Forall (fun c => c <> 0) (bytes_of_string "1234"))
    by (repeat constructor; discriminate).
  assert (H1 : Forall (fun c => 0 < c < 128) (bytes_of_string "1234"))
    by (repeat constructor; cbn; lia).
  destruct (ustring_parse_base_positional (bytes_of_string "1234") [] 10
              dec_digit_value dec_digit_value dec_digit_value H0)
    as [_ [H _]].
  destruct (H H1) as [Hb [Hd _]].
  split; [exact Hb | exact Hd].
Defined.

(** C3, as it holds: [ustring_parse_base] has no error result.  For a
    literal whose value does not fit in [uint64_t] it returns that value
    modulo [2^64], a number in the [uint64_t] range different from the
    value of the literal. *)
Theorem ustring_parse_base_overflow_wraps
    (s rest : list Z) (base : Z) (f : Z -> Z) :
  Forall (fun c => 0 < c < 128) s ->
  Int.UINT64_MAX < positional_value base f s ->
  exists v,
    ustring_parse_base (s ++ 0 :: rest) base f = Some v /\
    v = positional_value base f s mod 2^64 /\
    0 <= v <= Int.UINT64_MAX /\
    v <> positional_value base f s /\
    (base = 10 -> ustring_parse_dec f (s ++ 0 :: rest) = Some v) /\
    (base = 16 -> ustring_parse_hex f (s ++ 0 :: rest) = Some v).
Proof.
  intros Hs Hbig.
  assert (Hv : ustring_parse_base (s ++ 0 :: rest) base f
               = Some (positional_value base f s mod 2^64)).
  { rewrite ustring_parse_base_value by (apply ascii_nonzero, Hs).
    rewrite positional_value_ascii by assumption. reflexivity. }
  eexists. split; [exact Hv |]. split; [reflexivity |].
  pose proof (u64_range (positional_value base f s)) as Hr.
  unfold Int.u64 in Hr.
  split; [exact Hr |]. split; [lia |].
  split; intros ->; exact Hv.
Qed.

Lemma ustring_parse_base_overflow_wraps_witness :
  exists v,
    ustring_parse_base (bytes_of_string "18446744073709551617" ++ [0]) 10
      dec_digit_value = Some v /\
    v = 1 /\
    ustring_parse_dec dec_digit_value
      (bytes_of_string "18446744073709551617" ++ [0]) = Some v.
Proof.
  destruct (ustring_parse_base_overflow_wraps
              (bytes_of_string "18446744073709551617") [] 10 dec_digit_value)
    as [v [Hv [Hmod [_ [_ [Hdec _]]]]]].
  - repeat constructor; cbn; lia.
  - vm_compute. reflexivity.
  - exists v. split; [exact Hv |]. split; [exact Hmod | exact (Hdec eq_refl)].
Defined.

(** C3, as stated, fails: the decimal literal for [2^64] does not fit in
    [uint64_t], and [ustring_parse_dec] returns for it the wrapped value 0,
    the very result it returns for the literal 0. *)
Lemma ustring_parse_dec_no_overflow_error :
  positional_value 10 dec_digit_value (bytes_of_string "18446744073709551616")
  = 2^64 /\
  Int.UINT64_MAX
  < positional_value 10 dec_digit_value (bytes_of_string "18446744073709551616") /\
  ustring_parse_dec dec_digit_value (bytes_of_string "18446744073709551616" ++ [0])
  = Some (positional_value 10 dec_digit_value
            (bytes_of_string "18446744073709551616") mod 2^64) /\
  ustring_parse_dec dec_digit_value (bytes_of_string "18446744073709551616" ++ [0])
  = Some 0 /\
  ustring_parse_dec dec_digit_value (bytes_of_string "18446744073709551616" ++ [0])
  = ustring_parse_dec dec_digit_value (bytes_of_string "0" ++ [0]).
Proof. vm_compute. repeat split. Qed.

(** ** Cloning *)

Module HeapFacts.
Import Heap.

Section Clone.

Variable junk : nat -> Z.

Lemma view_lookup (h : heap) (p : ptr) (c : Z) (cells : list Z) :
  view h p = Some (c :: cells) ->
  load h p = Some c /\ view h (next p) = Some cells.
Proof.
  unfold view, load, next. cbn [blk off].
  destruct (h !! blk p) as [block |]; [| discriminate].
  cbn. intros [= Hdrop].
  assert (Hc : block !! off p = Some c).
  { rewrite <- (Nat.add_0_r (off p)), <- lookup_drop, Hdrop. reflexivity. }
  split; [exact Hc |].
  rewrite (drop_S _ _ _ Hc) in Hdrop. congruence.
Qed.

Lemma store_fresh (h : heap) (done : list Z) (j : Z) (tail : list Z) (v : Z) :
  store (h ++ [done ++ j :: tail]) {| blk := length h; off := length done |} v
  = Some (h ++ [(done ++ [v]) ++ tail]).
Proof.
  unfold store. cbn [blk off].
  rewrite lookup_app_r, Nat.sub_diag by lia. cbn [lookup list_lookup mbind option_bind].
  rewrite decide_True by (rewrite length_app; cbn; lia).
  f_equal.
  rewrite insert_app_r_alt, Nat.sub_diag by lia. cbn [insert list_insert].
  f_equal. f_equal.
  rewrite insert_app_r_alt, Nat.sub_diag by lia. cbn [insert list_insert].
  rewrite <- app_assoc. reflexivity.
Qed.

Lemma load_old (h : heap) (block : list Z) (p : ptr) :
  (blk p < length h)%nat -> load (h ++ [block]) p = load h p.
Proof. intros Hp. unfold load. rewrite lookup_app_l by exact Hp. reflexivity. Qed.

(** The copy loop writes the rest of the source string and its terminator
    behind what is already copied. *)
Lemma clone_loop_copies (h : heap) (string : ptr) (rest : list Z) :
  forall (t done fresh : list Z) (fuel : nat) (string' : ptr),
    blk string' = blk string ->
    (blk string < length h)%nat ->
    view h string' = Some (t ++ 0 :: rest) ->
    Forall (fun c => c <> 0) t ->
    length fresh = S (length t) ->
    (length t < fuel)%nat ->
    clone_loop fuel (h ++ [done ++ fresh])
      {| blk := length h; off := length done |} string'
    = Some (h ++ [done ++ t ++ [0]]).
Proof.
  induction t as [| c t IH]; intros done fresh fuel string' Hblk Hlt Hview Ht Hfresh Hfuel.
  - destruct fuel as [| fuel]; [lia |].
    destruct fresh as [| j [| ? ?]]; try discriminate.
    destruct (view_lookup _ _ _ _ Hview) as [Hload _].
    cbn [clone_loop]. rewrite load_old, Hload by lia.
    cbn [mbind option_bind]. rewrite store_fresh. cbn [mbind option_bind].
    rewrite Z.eqb_refl, app_nil_r. reflexivity.
  - destruct fuel as [| fuel]; [lia |].
    destruct fresh as [| j fresh]; [discriminate |].
    destruct (view_lookup _ _ _ _ Hview) as [Hload Hnext].
    inversion Ht as [| ? ? Hc Ht']; subst.
    cbn [clone_loop]. rewrite load_old, Hload by lia.
    cbn [mbind option_bind]. rewrite store_fresh. cbn [mbind option_bind].
    destruct (Z.eqb_spec c 0); [contradiction |].
    replace (next {| blk := length h; off := length done |})
      with {| blk := length h; off := length (done ++ [c]) |}
      by (unfold next; cbn; rewrite length_app, Nat.add_1_r; reflexivity).
    rewrite (IH (done ++ [c]) fresh fuel (next string')); cbn in *; try (assumption || lia).
    rewrite <- app_assoc. reflexivity.
Qed.

Lemma fits_lookup (h : heap) (b : nat) (cells : list Z) :
  fits_address_space h -> h !! b = Some cells ->
  4 * Z.of_nat (length cells) <= SIZE_MAX.
Proof.
  intros Hfit Hb. unfold fits_address_space in Hfit.
  rewrite Forall_lookup in Hfit. exact (Hfit b cells Hb).
Qed.

Lemma ustring_clone_result (h : heap) (string : ptr) (s rest : list Z) :
  fits_address_space h ->
  view h string = Some (s ++ 0 :: rest) ->
  Forall (fun c => c <> 0) s ->
  ustring_clone junk h string
  = Some (h ++ [s ++ [0]], {| blk := length h; off := 0 |}).
Proof.
  intros Hfit Hview Hs.
  assert (Hblock : exists block, h !! blk string = Some block /\
                     drop (off string) block = s ++ 0 :: rest).
  { unfold view in Hview. destruct (h !! blk string) as [block |]; [| discriminate].
    exists block. split; [reflexivity |]. cbn in Hview. congruence. }
  destruct Hblock as [block [Hblock Hdrop]].
  pose proof (fits_lookup _ _ _ Hfit Hblock) as Hsize.
  assert (Hlen : (length s + 1 + length rest <= length block)%nat).
  { apply (f_equal length) in Hdrop.
    rewrite length_drop, length_app in Hdrop. cbn in Hdrop. lia. }
  unfold ustring_clone. rewrite Hview. cbn [mbind option_bind].
  rewrite (ustring_len_terminated s rest Hs). cbn [mbind option_bind].
  unfold malloc, Int.u64. unfold SIZE_MAX in Hsize.
  rewrite Z.mod_small by lia.
  rewrite Z.div_mul by lia.
  set (fresh := map junk (seq 0 (Z.to_nat (Z.of_nat (length s) + 1)))).
  assert (Hloop : clone_loop (length (s ++ 0 :: rest)) (h ++ [[] ++ fresh])
                    {| blk := length h; off := length (@nil Z) |} string
                  = Some (h ++ [[] ++ s ++ [0]])).
  { apply (clone_loop_copies h string rest); try (reflexivity || assumption).
    - apply lookup_lt_Some in Hblock. exact Hblock.
    - unfold fresh. rewrite length_map, length_seq. lia.
    - rewrite length_app. cbn. lia. }
  cbn [app length] in Hloop. cbn [app]. rewrite Hloop. reflexivity.
Qed.

(** C10: for a zero-terminated string [s] at [string], [ustring_clone]
    returns a pointer to the start of an allocation the heap did not have
    before; every allocation the heap had, the one holding [s] among them,
    is unchanged; the clone has the length of [s] and compares equal
    to it. *)
Theorem ustring_clone_fresh_equal
    (h : heap) (string : ptr) (s rest : list Z) :
  fits_address_space h ->
  view h string = Some (s ++ 0 :: rest) ->
  Forall (fun c => c <> 0) s ->
  exists (h' : heap) (copy : ptr),
    ustring_clone junk h string = Some (h', copy) /\
    h !! blk copy = None /\ is_Some (h' !! blk copy) /\ off copy = 0%nat /\
    (forall (b : nat) (cells : list Z), h !! b = Some cells -> h' !! b = Some cells) /\
    view h' string = view h string /\
    ustring_len_at h string = Some (length s) /\
    ustring_len_at h' copy = ustring_len_at h string /\
    ustring_cmp_at h' copy string = Some 0.
Proof.
  intros Hfit Hview Hs.
  assert (Hold : forall (b : nat) (cells : list Z),
             h !! b = Some cells -> (h ++ [s ++ [0]]) !! b = Some cells).
  { intros b cells Hb. rewrite lookup_app_l; [exact Hb |].
    apply lookup_lt_Some in Hb. exact Hb. }
  assert (Hview' : view (h ++ [s ++ [0]]) string = view h string).
  { unfold view in *. destruct (h !! blk string) as [block |] eqn:Hb; [| discriminate].
    rewrite (Hold _ _ Hb). reflexivity. }
  assert (Hcopy : view (h ++ [s ++ [0]]) {| blk := length h; off := 0 |}
                  = Some (s ++ [0])).
  { unfold view. cbn [blk off].
    rewrite lookup_app_r, Nat.sub_diag by lia. reflexivity. }
  exists (h ++ [s ++ [0]]), {| blk := length h; off := 0 |}.
  split; [apply (ustring_clone_result h string s rest); assumption |].
  split; [apply lookup_ge_None; cbn; lia |].
  split; [cbn [blk]; rewrite lookup_app_r, Nat.sub_diag by lia; eexists; reflexivity |].
  split; [reflexivity |].
  split; [exact Hold |].
  split; [exact Hview' |].
  assert (Hlen : ustring_len_at h string = Some (length s)).
  { unfold ustring_len_at. rewrite Hview. apply ustring_len_terminated, Hs. }
  split; [exact Hlen |].
  split.
  - rewrite Hlen. unfold ustring_len_at. rewrite Hcopy.
    apply (ustring_len_terminated s []), Hs.
  - unfold ustring_cmp_at. rewrite Hcopy, Hview', Hview.
    apply (ustring_cmp_equal s [] rest), Hs.
Qed.

End Clone.

Lemma ustring_clone_fresh_equal_witness :
  exists (h' : heap) (copy : ptr),
    ustring_clone (fun _ => 77) [[1; 2; 3; 0; 5]; [9; 8; 0]] {| blk := 0; off := 1 |}
    = Some (h', copy) /\
    [[1; 2; 3; 0; 5]; [9; 8; 0]] !! blk copy = None /\
    is_Some (h' !! blk copy) /\ off copy = 0%nat /\
    (forall (b : nat) (cells : list Z),
        [[1; 2; 3; 0; 5]; [9; 8; 0]] !! b = Some cells -> h' !! b = Some cells) /\
    view h' {| blk := 0; off := 1 |}
    = view [[1; 2; 3; 0; 5]; [9; 8; 0]] {| blk := 0; off := 1 |} /\
    ustring_len_at [[1; 2; 3; 0; 5]; [9; 8; 0]] {| blk := 0; off := 1 |}
    = Some (length [2; 3]) /\
    ustring_len_at h' copy
    = ustring_len_at [[1; 2; 3; 0; 5]; [9; 8; 0]] {| blk := 0; off := 1 |} /\
    ustring_cmp_at h' copy {| blk := 0; off := 1 |} = Some 0.
Proof.
  apply (ustring_clone_fresh_equal (fun _ => 77) [[1; 2; 3; 0; 5]; [9; 8; 0]]
           {| blk := 0; off := 1 |} [2; 3] [5]).
  - repeat constructor; cbn; unfold SIZE_MAX; lia.
  - reflexivity.
  - repeat constructor; discriminate.
Defined.

End HeapFacts.

(** ** Counting the characters of printed text *)

Section Width.

Lemma ustring_str_terminated (s rest : list Z) :
  Forall (fun c => c <> 0) s ->
  ustring_str (s ++ 0 :: rest) = Some (concat (map put_unicode s)).
Proof.
  induction 1 as [| c s Hc _ IH]; [reflexivity |].
  cbn [app ustring_str map concat]. destruct (Z.eqb_spec c 0); [contradiction |].
  rewrite IH. reflexivity.
Qed.

(** [utf8_length] counts one character for every code point printed by
    [put_unicode]. *)
Lemma utf8_length_loop_encoded (cps : list Z) :
  Forall (fun c => 0 < c < AUGMENT_CHAR) cps ->
  forall (fuel i : nat),
    (length (concat (map put_unicode cps)) < fuel)%nat ->
    utf8_length_loop fuel (concat (map put_unicode cps) ++ [0]) i
    = Some (i + length cps)%nat.
Proof.
  induction 1 as [| c cps Hc _ IH]; intros fuel i Hfuel.
  - destruct fuel as [| fuel]; [cbn in Hfuel; lia |].
    cbn. f_equal. lia.
  - destruct fuel as [| fuel]; [lia |].
    cbn [map concat] in *. rewrite length_app in Hfuel.
    pose proof (put_unicode_length c ltac:(lia)) as Hlen.
    cbn [utf8_length_loop]. rewrite <- app_assoc.
    rewrite eat_utf8_encoded by lia. cbn [mbind option_bind].
    destruct (Z.eqb_spec c 0); [lia |].
    rewrite drop_app_length, IH by lia.
    cbn [length]. f_equal. lia.
Qed.

Lemma utf8_length_encoded (cps : list Z) :
  Forall (fun c => 0 < c < AUGMENT_CHAR) cps ->
  utf8_length (concat (map put_unicode cps) ++ [0]) = Some (length cps).
Proof.
  intros Hcps. unfold utf8_length.
  rewrite utf8_length_loop_encoded; [reflexivity | exact Hcps |].
  rewrite length_app. cbn. lia.
Qed.

Lemma put_unicode_ascii (bs : list Z) :
  Forall (fun b => 0 < b < 128) bs -> concat (map put_unicode bs) = bs.
Proof.
  induction 1 as [| b bs Hb _ IH]; [reflexivity |].
  cbn [map concat]. rewrite IH, put_unicode_1 by lia. reflexivity.
Qed.

Lemma string_of_uint_digits (d : Decimal.uint) :
  Forall (fun b => 0 < b < 128) (bytes_of_string (NilEmpty.string_of_uint d)).
Proof.
  induction d as [| d IH | d IH | d IH | d IH | d IH | d IH | d IH | d IH | d IH | d IH];
    cbn [NilEmpty.string_of_uint bytes_of_string];
    constructor; (exact IH || (unfold byte_of_ascii; simpl; lia)).
Qed.

Example fmt_unsigned_zero : fmt_unsigned 0 = bytes_of_string "0".
Proof. reflexivity. Qed.

Example fmt_unsigned_max :
  fmt_unsigned Int.UINT64_MAX = bytes_of_string "18446744073709551615".
Proof. vm_compute. reflexivity. Qed.

Lemma fmt_unsigned_ascii (x : Z) : Forall (fun b => 0 < b < 128) (fmt_unsigned x).
Proof.
  unfold fmt_unsigned, NilZero.string_of_uint.
  destruct (N.to_uint (Z.to_N x)) eqn:Hd; try (rewrite <- Hd; apply string_of_uint_digits).
  repeat constructor; cbn; lia.
Qed.

Lemma ascii_is_code_point (bs : list Z) :
  Forall (fun b => 0 < b < 128) bs -> Forall (fun c => 0 < c < AUGMENT_CHAR) bs.
Proof.
  intros H. eapply Forall_impl; [exact H |]. cbn. unfold AUGMENT_CHAR. intros c Hc. lia.
Qed.

(** Text made of ASCII bytes around a printed code-point string. *)
Lemma utf8_length_rendering (a name b d e : list Z) :
  Forall (fun x => 0 < x < 128) a -> Forall (fun x => 0 < x < 128) b ->
  Forall (fun x => 0 < x < 128) d -> Forall (fun x => 0 < x < 128) e ->
  Forall (fun c => 0 < c < AUGMENT_CHAR) name ->
  utf8_length ((a ++ concat (map put_unicode name) ++ b ++ d ++ e) ++ [0])
  = Some (length a + length name + length b + length d + length e)%nat.
Proof.
  intros Ha Hb Hd He Hname.
  replace (a ++ concat (map put_unicode name) ++ b ++ d ++ e)
    with (concat (map put_unicode (a ++ name ++ b ++ d ++ e))).
  - rewrite utf8_length_encoded.
    + f_equal. rewrite !length_app. lia.
    + repeat (apply Forall_app; split); try exact Hname;
        apply ascii_is_code_point; assumption.
  - rewrite !map_app, !concat_app.
    rewrite (put_unicode_ascii a), (put_unicode_ascii b),
      (put_unicode_ascii d), (put_unicode_ascii e) by assumption.
    reflexivity.
Qed.

End Width.

(** ** Reductions *)

Module ReductionFacts.
Import Reduction.

Lemma bind_unfold {A B : Type} (m : M A) (k : A -> M B) (w : world) :
  (m ≫= k) w = match m w with Some (x, w') => k x w' | None => None end.
Proof. reflexivity. Qed.

Lemma load_valid (w : world) (r : nat) (red : reduction) :
  heap w !! r = Some (Some red) -> load r w = Some (red, w).
Proof. intros H. unfold load. rewrite H. reflexivity. Qed.

(** Run a computation whose loads are covered by hypotheses. *)
Ltac step :=
  repeat first
    [ rewrite bind_unfold
    | erewrite load_valid by eassumption
    | progress cbn [mret M_ret printf lift fst snd fmap option_fmap option_map
                    heap stdout] ].

Lemma reduction_equals_value (w : world) (a b : nat) (ra rb : reduction) :
  heap w !! a = Some (Some ra) -> heap w !! b = Some (Some rb) ->
  reduction_equals a b w
  = Some ((length ra =? length rb) && (head_idx ra =? head_idx rb), w).
Proof. intros Ha Hb. unfold reduction_equals. step. reflexivity. Qed.

Lemma reduction_equals_true (w : world) (a b : nat) (ra rb : reduction) :
  heap w !! a = Some (Some ra) -> heap w !! b = Some (Some rb) ->
  eval (reduction_equals a b) w = Some true <-> ra = rb.
Proof.
  intros Ha Hb. unfold eval. rewrite (reduction_equals_value w a b ra rb Ha Hb).
  cbn. destruct ra as [ha la], rb as [hb lb]. cbn. split.
  - intros [= H]. apply andb_prop in H as [Hl Hh].
    apply Z.eqb_eq in Hl, Hh. congruence.
  - intros [= -> ->]. rewrite !Z.eqb_refl. reflexivity.
Qed.

Section Hash.

Variable hash_uint_sequence : list Z -> Z -> Z.

Lemma reduction_hash_value (w : world) (r : nat) (red : reduction) :
  heap w !! r = Some (Some red) ->
  reduction_hash hash_uint_sequence r w
  = Some (hash_uint_sequence [length red; head_idx red] 2, w).
Proof. intros Hr. unfold reduction_hash. step. reflexivity. Qed.

(** C1: on the reduction records the heap holds at [a], [b] and [c],
    [reduction_equals] is reflexive, symmetric and transitive, it holds
    exactly when the two records have the same fields, and records it
    holds for have the same [reduction_hash]. *)
Theorem reduction_equals_equivalence
    (w : world) (a b c : nat) (ra rb rc : reduction) :
  heap w !! a = Some (Some ra) ->
  heap w !! b = Some (Some rb) ->
  heap w !! c = Some (Some rc) ->
  eval (reduction_equals a a) w = Some true /\
  (eval (reduction_equals a b) w = Some true ->
   eval (reduction_equals b a) w = Some true) /\
  (eval (reduction_equals a b) w = Some true ->
   eval (reduction_equals b c) w = Some true ->
   eval (reduction_equals a c) w = Some true) /\
  (eval (reduction_equals a b) w = Some true <->
   head_idx ra = head_idx rb /\ length ra = length rb) /\
  (eval (reduction_equals a b) w = Some true ->
   exists hash : Z,
     eval (reduction_hash hash_uint_sequence a) w = Some hash /\
     eval (reduction_hash hash_uint_sequence b) w = Some hash).
Proof.
  intros Ha Hb Hc. repeat split.
  - apply (reduction_equals_true w a a ra ra Ha Ha). reflexivity.
  - rewrite (reduction_equals_true w a b ra rb Ha Hb),
      (reduction_equals_true w b a rb ra Hb Ha). congruence.
  - rewrite (reduction_equals_true w a b ra rb Ha Hb),
      (reduction_equals_true w b c rb rc Hb Hc),
      (reduction_equals_true w a c ra rc Ha Hc). congruence.
  - apply (reduction_equals_true w a b ra rb Ha Hb) in H. congruence.
  - apply (reduction_equals_true w a b ra rb Ha Hb) in H. congruence.
  - intros [Hh Hl]. apply (reduction_equals_true w a b ra rb Ha Hb).
    destruct ra, rb. cbn in *. congruence.
  - intros Heq. apply (reduction_equals_true w a b ra rb Ha Hb) in Heq. subst rb.
    exists (hash_uint_sequence [length ra; head_idx ra] 2).
    unfold eval.
    rewrite (reduction_hash_value w a ra Ha), (reduction_hash_value w b ra Hb).
    split; reflexivity.
Qed.

End Hash.

Lemma reduction_equals_equivalence_witness :
  eval (reduction_equals 0 1) (mk_world [Some (mk_reduction 7 3);
                                         Some (mk_reduction 7 3);
                                         Some (mk_reduction 7 3)] [])
  = Some true /\
  exists hash : Z,
    eval (reduction_hash (fun seq n => fold_right Z.add n seq) 0)
      (mk_world [Some (mk_reduction 7 3); Some (mk_reduction 7 3);
                 Some (mk_reduction 7 3)] []) = Some hash /\
    eval (reduction_hash (fun seq n => fold_right Z.add n seq) 1)
      (mk_world [Some (mk_reduction 7 3); Some (mk_reduction 7 3);
                 Some (mk_reduction 7 3)] []) = Some hash.
Proof.
  destruct (reduction_equals_equivalence (fun seq n => fold_right Z.add n seq)
              (mk_world [Some (mk_reduction 7 3); Some (mk_reduction 7 3);
                         Some (mk_reduction 7 3)] [])
              0 1 2 (mk_reduction 7 3) (mk_reduction 7 3) (mk_reduction 7 3)
              eq_refl eq_refl eq_refl)
    as [_ [_ [_ [Hiff Hhash]]]].
  assert (Heq : eval (reduction_equals 0 1)
                  (mk_world [Some (mk_reduction 7 3); Some (mk_reduction 7 3);
                             Some (mk_reduction 7 3)] []) = Some true)
    by (apply Hiff; split; reflexivity).
  split; [exact Heq | exact (Hhash Heq)].
Defined.

(** *** The heap is only read *)

Lemma read_only_ret {A : Type} (x : A) : read_only (mret x : M A).
Proof. intros w w' y [= _ <-]. reflexivity. Qed.

Lemma read_only_undefined {A : Type} : read_only (@undefined A).
Proof. intros w w' y. discriminate. Qed.

Lemma read_only_bind {A B : Type} (m : M A) (k : A -> M B) :
  read_only m -> (forall x, read_only (k x)) -> read_only (m ≫= k).
Proof.
  intros Hm Hk w w' y. rewrite bind_unfold.
  destruct (m w) as [[x w1] |] eqn:Hmw; [| discriminate].
  intros Hkw. rewrite (Hk x w1 w' y Hkw). exact (Hm w w1 x Hmw).
Qed.

Lemma read_only_load (r : nat) : read_only (load r).
Proof.
  intros w w' x. unfold load.
  destruct (heap w !! r) as [[v |] |]; try discriminate.
  intros [= _ <-]. reflexivity.
Qed.

Lemma read_only_printf (bytes : list Z) : read_only (printf bytes).
Proof. intros w w' x [= _ <-]. reflexivity. Qed.

Lemma read_only_lift {A : Type} (o : option A) : read_only (lift o).
Proof. destruct o; [apply read_only_ret | apply read_only_undefined]. Qed.

Lemma read_only_int_add (a b : Z) : read_only (int_add a b).
Proof.
  unfold int_add. destruct (decide _); [apply read_only_ret | apply read_only_undefined].
Qed.

Create HintDb read_only.
#[local] Hint Resolve read_only_ret read_only_undefined read_only_load
  read_only_printf read_only_lift read_only_int_add : read_only.

Ltac prove_read_only :=
  repeat first
    [ apply read_only_bind; [| intros ?]
    | solve [auto with read_only] ].

Section Frame.

Variable metaparser_get_symbol : Z -> obj.
Variable obj_str : obj -> option (list Z).
Variable hash_uint_sequence : list Z -> Z -> Z.

Lemma reduction_str_read_only (r : nat) :
  read_only (reduction_str metaparser_get_symbol obj_str r).
Proof. unfold reduction_str. prove_read_only. Qed.

Lemma reduction_strlen_read_only (r : nat) :
  read_only (reduction_strlen metaparser_get_symbol r).
Proof. unfold reduction_strlen. prove_read_only. Qed.

Lemma reduction_repr_read_only (r : nat) : read_only (reduction_repr r).
Proof. unfold reduction_repr. prove_read_only. Qed.

Lemma reduction_equals_read_only (left right : nat) :
  read_only (reduction_equals left right).
Proof. unfold reduction_equals. prove_read_only. Qed.

Lemma reduction_hash_read_only (r : nat) :
  read_only (reduction_hash hash_uint_sequence r).
Proof. unfold reduction_hash. prove_read_only. Qed.

Lemma reduction_repr_value (w : world) (r : nat) (red : reduction) :
  heap w !! r = Some (Some red) ->
  reduction_repr r w
  = Some (tt, {| heap := heap w;
                 stdout := stdout w ++
                   bytes_of_string "reduction{head_idx: "
                   ++ fmt_unsigned (head_idx red)
                   ++ bytes_of_string ", length: " ++ fmt_unsigned (length red)
                   ++ bytes_of_string "}" |}).
Proof. intros Hr. unfold reduction_repr. step. reflexivity. Qed.

Lemma reduction_str_value (w : world) (r : nat) (red : reduction) (name : list Z) :
  heap w !! r = Some (Some red) ->
  obj_str (metaparser_get_symbol (head_idx red)) = Some name ->
  reduction_str metaparser_get_symbol obj_str r w
  = Some (tt, {| heap := heap w;
                 stdout := stdout w ++
                   bytes_of_string "R(" ++ name ++ bytes_of_string ", "
                   ++ fmt_unsigned (length red) ++ bytes_of_string ")" |}).
Proof.
  intros Hr Hname. unfold reduction_str. step. rewrite Hname. step.
  unfold printf. cbn [heap stdout]. rewrite <- !app_assoc. reflexivity.
Qed.

Lemma new_reduction_value (w : world) (h l : Z) :
  new_reduction h l w
  = Some (List.length (heap w),
          {| heap := heap w ++ [Some {| head_idx := h; length := l |}];
             stdout := stdout w |}).
Proof.
  unfold new_reduction, malloc, store. rewrite !bind_unfold. cbn [heap stdout].
  rewrite decide_True by (rewrite length_app; cbn; lia).
  cbn [mret M_ret heap stdout]. do 3 f_equal.
  rewrite insert_app_r_alt, Nat.sub_diag by lia. reflexivity.
Qed.

Lemma new_reduction_lookup (w : world) (h l : Z) :
  (heap w ++ [Some {| head_idx := h; length := l |}]) !! List.length (heap w)
  = Some (Some {| head_idx := h; length := l |}).
Proof. rewrite lookup_app_r, Nat.sub_diag by lia. reflexivity. Qed.

Lemma printed_appended {A : Type} (m : M A) (w : world) (x : A)
    (hp : list (option reduction)) (out : list Z) :
  m w = Some (x, {| heap := hp; stdout := stdout w ++ out |}) ->
  printed m w = Some out.
Proof.
  intros Hm. unfold printed, run. rewrite Hm. cbn.
  rewrite drop_app_length. reflexivity.
Qed.

(** C5: the record [new_reduction] builds holds the two arguments;
    [reduction_repr] prints for it [reduction{head_idx: H, length: L}] and
    [reduction_str] prints [R(NAME, L)], with H and L in decimal and NAME
    what [obj_str] prints for symbol H of the symbol table.  For
    [new_reduction(7, 3)] these are [reduction{head_idx: 7, length: 3}] and
    [R(NAME, 3)]. *)
Theorem new_reduction_repr_str (w : world) (h l : Z) (name : list Z) :
  obj_str (metaparser_get_symbol h) = Some name ->
  eval (r ← new_reduction h l; load r) w
  = Some {| head_idx := h; length := l |} /\
  printed (r ← new_reduction h l; reduction_repr r) w
  = Some (bytes_of_string "reduction{head_idx: " ++ fmt_unsigned h
            ++ bytes_of_string ", length: " ++ fmt_unsigned l
            ++ bytes_of_string "}") /\
  printed (r ← new_reduction h l; reduction_str metaparser_get_symbol obj_str r) w
  = Some (bytes_of_string "R(" ++ name ++ bytes_of_string ", "
            ++ fmt_unsigned l ++ bytes_of_string ")") /\
  (h = 7 -> l = 3 ->
   printed (r ← new_reduction 7 3; reduction_repr r) w
   = Some (bytes_of_string "reduction{head_idx: 7, length: 3}") /\
   printed (r ← new_reduction 7 3; reduction_str metaparser_get_symbol obj_str r) w
   = Some (bytes_of_string "R(" ++ name ++ bytes_of_string ", 3)")).
Proof.
  intros Hname.
  assert (Hrepr : forall h l,
    printed (r ← new_reduction h l; reduction_repr r) w
    = Some (bytes_of_string "reduction{head_idx: " ++ fmt_unsigned h
              ++ bytes_of_string ", length: " ++ fmt_unsigned l
              ++ bytes_of_string "}")).
  { intros h' l'. eapply printed_appended.
    rewrite bind_unfold, new_reduction_value.
    erewrite reduction_repr_value by apply new_reduction_lookup.
    reflexivity. }
  assert (Hstr :
    printed (r ← new_reduction h l; reduction_str metaparser_get_symbol obj_str r) w
    = Some (bytes_of_string "R(" ++ name ++ bytes_of_string ", "
              ++ fmt_unsigned l ++ bytes_of_string ")")).
  { eapply printed_appended.
    rewrite bind_unfold, new_reduction_value.
    erewrite reduction_str_value by (apply new_reduction_lookup || exact Hname).
    reflexivity. }
  split; [| split; [apply Hrepr | split; [exact Hstr |]]].
  - unfold eval. rewrite bind_unfold, new_reduction_value.
    erewrite load_valid by apply new_reduction_lookup. reflexivity.
  - intros -> ->. split; [apply Hrepr | exact Hstr].
Qed.

End Frame.

Lemma new_reduction_repr_str_witness :
  printed (r ← new_reduction 7 3; reduction_repr r) (mk_world [] [])
  = Some (bytes_of_string "reduction{head_idx: 7, length: 3}") /\
  printed (r ← new_reduction 7 3;
           reduction_str (fun _ => mk_obj (bytes_of_string "Expr" ++ [0]))
             obj_str_name r) (mk_world [] [])
  = Some (bytes_of_string "R(Expr, 3)").
Proof.
  destruct (new_reduction_repr_str
              (fun _ => mk_obj (bytes_of_string "Expr" ++ [0])) obj_str_name
              (mk_world [] []) 7 3 (bytes_of_string "Expr") eq_refl)
    as [_ [_ [_ H]]].
  exact (H eq_refl eq_refl).
Defined.

Lemma i32_of_size (x : Z) : 0 <= x <= Int.INT_MAX -> Int.i32 (Int.u64 x) = x.
Proof.
  unfold Int.INT_MAX, Int.i32, Int.u64, Int.signed. intros Hx.
  rewrite (Z.mod_small x (2^64)) by lia.
  rewrite (Z.mod_small x (2^32)) by lia.
  destruct (Z.ltb_spec x (2^(32 - 1))) as [_ | Hge]; [reflexivity |].
  change (2^(32 - 1)) with (2^31) in Hge. lia.
Qed.

Section Strlen.

Variable metaparser_get_symbol : Z -> obj.

Lemma reduction_strlen_value (w : world) (r : nat) (red : reduction) (len : nat) :
  heap w !! r = Some (Some red) ->
  ustring_len (data (metaparser_get_symbol (head_idx red))) = Some len ->
  Z.of_nat len
    + snprintf_0 (bytes_of_string "R(, " ++ fmt_unsigned (length red)
                    ++ bytes_of_string ")") <= Int.INT_MAX ->
  reduction_strlen metaparser_get_symbol r w
  = Some (Z.of_nat len
            + snprintf_0 (bytes_of_string "R(, " ++ fmt_unsigned (length red)
                            ++ bytes_of_string ")"), w).
Proof.
  intros Hr Hlen Hfit. unfold reduction_strlen. step. rewrite Hlen. step.
  unfold snprintf_0 in *. rewrite Z.add_0_l, i32_of_size by lia.
  unfold int_add. rewrite decide_True by (unfold Int.INT_MIN; lia).
  reflexivity.
Qed.

(** C6: for a head symbol whose name is a string of code points below
    [AUGMENT_CHAR], and a width that an [int] can hold, [reduction_strlen]
    returns the number of characters of what [reduction_str] prints, as
    [utf8_length] counts them: the number of code points of the name plus
    the number of characters of [R(, L)], L the length in decimal. *)
Theorem reduction_strlen_printed_width
    (w : world) (r : nat) (red : reduction) (name rest : list Z) :
  heap w !! r = Some (Some red) ->
  data (metaparser_get_symbol (head_idx red)) = name ++ 0 :: rest ->
  Forall (fun c => 0 < c < AUGMENT_CHAR) name ->
  Z.of_nat (List.length name)
    + snprintf_0 (bytes_of_string "R(, " ++ fmt_unsigned (length red)
                    ++ bytes_of_string ")") <= Int.INT_MAX ->
  exists (rendering : list Z) (width : nat),
    printed (reduction_str metaparser_get_symbol obj_str_name r) w = Some rendering /\
    rendering = bytes_of_string "R(" ++ concat (map put_unicode name)
                  ++ bytes_of_string ", " ++ fmt_unsigned (length red)
                  ++ bytes_of_string ")" /\
    eval (reduction_strlen metaparser_get_symbol r) w = Some (Z.of_nat width) /\
    utf8_length (rendering ++ [0]) = Some width /\
    width = (List.length name
             + List.length (bytes_of_string "R(, " ++ fmt_unsigned (length red)
                              ++ bytes_of_string ")"))%nat.
Proof.
  intros Hr Hdata Hname Hfit.
  assert (Hnz : Forall (fun c => c <> 0) name).
  { eapply Forall_impl; [exact Hname |]. cbn. intros c Hc. lia. }
  eexists. eexists. split; [| split; [reflexivity | split; [| split; [| reflexivity]]]].
  - eapply printed_appended. eapply reduction_str_value; [exact Hr |].
    unfold obj_str_name. rewrite Hdata. apply ustring_str_terminated, Hnz.
  - unfold eval.
    rewrite (reduction_strlen_value w r red (List.length name) Hr); [| | exact Hfit].
    + cbn [fst fmap option_fmap option_map]. f_equal. unfold snprintf_0. lia.
    + rewrite Hdata. apply ustring_len_terminated, Hnz.
  - rewrite utf8_length_rendering;
      try (apply fmt_unsigned_ascii || exact Hname
           || (repeat constructor; unfold byte_of_ascii; simpl; lia)).
    f_equal. rewrite !length_app. cbn [List.length bytes_of_string]. lia.
Qed.

End Strlen.

Lemma reduction_strlen_printed_width_witness :
  exists (rendering : list Z) (width : nat),
    printed (reduction_str
               (fun _ => mk_obj ([0x45; 0x3B1; 0x1F596] ++ 0 :: [])) obj_str_name 0)
      (mk_world [Some (mk_reduction 7 3)] []) = Some rendering /\
    rendering = bytes_of_string "R(" ++ concat (map put_unicode [0x45; 0x3B1; 0x1F596])
                  ++ bytes_of_string ", " ++ fmt_unsigned 3
                  ++ bytes_of_string ")" /\
    eval (reduction_strlen
            (fun _ => mk_obj ([0x45; 0x3B1; 0x1F596] ++ 0 :: [])) 0)
      (mk_world [Some (mk_reduction 7 3)] []) = Some (Z.of_nat width) /\
    utf8_length (rendering ++ [0]) = Some width /\
    width = (List.length [0x45; 0x3B1; 0x1F596]%Z
             + List.length (bytes_of_string "R(, " ++ fmt_unsigned 3
                              ++ bytes_of_string ")"))%nat.
Proof.
  apply (reduction_strlen_printed_width
           (fun _ => mk_obj ([0x45; 0x3B1; 0x1F596] ++ 0 :: []))
           (mk_world [Some (mk_reduction 7 3)] []) 0%nat (mk_reduction 7 3)
           [0x45; 0x3B1; 0x1F596] []).
  - reflexivity.
  - reflexivity.
  - repeat constructor; unfold AUGMENT_CHAR; lia.
  - vm_compute. discriminate.
Defined.

(** *** Immutability *)

Lemma read_only_keeps {A : Type} (m : M A) (w : world) (r : nat) (red : reduction) :
  read_only m -> heap w !! r = Some (Some red) -> keeps m w r red.
Proof.
  intros Hm Hr x w' Hrun. pose proof (Hm w w' x Hrun) as Hheap.
  split; [| exact Hheap].
  unfold eval. rewrite (load_valid w' r red) by (rewrite Hheap; exact Hr).
  reflexivity.
Qed.

Section Immutable.

Variable metaparser_get_symbol : Z -> obj.
Variable obj_str : obj -> option (list Z).
Variable hash_uint_sequence : list Z -> Z -> Z.

(** C8: [reduction_str], [reduction_strlen], [reduction_repr],
    [reduction_equals] and [reduction_hash] leave the [head_idx] and
    [length] of the record they are called on, and of every other record,
    as they were; and they do return: [reduction_repr], [reduction_equals]
    and [reduction_hash] on every record, [reduction_str] whenever
    [obj_str] returns for the head symbol, [reduction_strlen] whenever the
    name of the head symbol is terminated and the width fits an [int]. *)
Theorem reduction_functions_keep_record
    (w : world) (r other : nat) (red red' : reduction) :
  heap w !! r = Some (Some red) ->
  heap w !! other = Some (Some red') ->
  (keeps (reduction_str metaparser_get_symbol obj_str r) w r red /\
   keeps (reduction_strlen metaparser_get_symbol r) w r red /\
   keeps (reduction_repr r) w r red /\
   keeps (reduction_equals r other) w r red /\
   keeps (reduction_equals other r) w r red /\
   keeps (reduction_hash hash_uint_sequence r) w r red) /\
  (is_Some (reduction_repr r w) /\
   is_Some (reduction_equals r other w) /\
   is_Some (reduction_equals other r w) /\
   is_Some (reduction_hash hash_uint_sequence r w) /\
   (is_Some (obj_str (metaparser_get_symbol (head_idx red))) ->
    is_Some (reduction_str metaparser_get_symbol obj_str r w)) /\
   (forall len : nat,
       ustring_len (data (metaparser_get_symbol (head_idx red))) = Some len ->
       Z.of_nat len
         + snprintf_0 (bytes_of_string "R(, " ++ fmt_unsigned (length red)
                         ++ bytes_of_string ")") <= Int.INT_MAX ->
       is_Some (reduction_strlen metaparser_get_symbol r w))).
Proof.
  intros Hr Hother. split.
  - refine (conj _ (conj _ (conj _ (conj _ (conj _ _)))));
      (apply read_only_keeps; [| exact Hr]).
    + apply reduction_str_read_only.
    + apply reduction_strlen_read_only.
    + apply reduction_repr_read_only.
    + apply reduction_equals_read_only.
    + apply reduction_equals_read_only.
    + apply reduction_hash_read_only.
  - split; [| split; [| split; [| split; [| split]]]].
    + rewrite (reduction_repr_value w r red Hr). eexists; reflexivity.
    + rewrite (reduction_equals_value w r other red red' Hr Hother).
      eexists; reflexivity.
    + rewrite (reduction_equals_value w other r red' red Hother Hr).
      eexists; reflexivity.
    + rewrite (reduction_hash_value hash_uint_sequence w r red Hr).
      eexists; reflexivity.
    + intros [out Hout].
      rewrite (reduction_str_value metaparser_get_symbol obj_str w r red out Hr Hout).
      eexists; reflexivity.
    + intros len Hlen Hfit.
      rewrite (reduction_strlen_value metaparser_get_symbol w r red len Hr Hlen Hfit).
      eexists; reflexivity.
Qed.

End Immutable.

Lemma reduction_functions_keep_record_witness :
  keeps (reduction_str (fun _ => mk_obj (bytes_of_string "Expr" ++ [0]))
           obj_str_name 0)
    (mk_world [Some (mk_reduction 7 3); Some (mk_reduction 2 1)] []) 0
    (mk_reduction 7 3) /\
  is_Some (reduction_str (fun _ => mk_obj (bytes_of_string "Expr" ++ [0]))
             obj_str_name 0
             (mk_world [Some (mk_reduction 7 3); Some (mk_reduction 2 1)] [])) /\
  is_Some (reduction_strlen (fun _ => mk_obj (bytes_of_string "Expr" ++ [0])) 0
             (mk_world [Some (mk_reduction 7 3); Some (mk_reduction 2 1)] [])).
Proof.
  destruct (reduction_functions_keep_record
              (fun _ => mk_obj (bytes_of_string "Expr" ++ [0])) obj_str_name
              (fun seq n => fold_right Z.add n seq)
              (mk_world [Some (mk_reduction 7 3); Some (mk_reduction 2 1)] [])
              0 1 (mk_reduction 7 3) (mk_reduction 2 1) eq_refl eq_refl)
    as [[Hkeep _] [_ [_ [_ [_ [Hstr Hstrlen]]]]]].
  split; [exact Hkeep | split].
  - apply Hstr. eexists. reflexivity.
  - apply (Hstrlen 4%nat); [reflexivity | vm_compute; discriminate].
Defined.

End ReductionFacts.

(** * Further properties of ustring.c *)

Section UstringMore.

(** X1: [ustring_len] returns the index of the first zero cell, and reads past
    the end of the allocation exactly when no cell from the pointer on is
    zero. *)
Theorem ustring_len_first_zero (str : list Z) (n : nat) :
  (ustring_len str = Some n <->
   str !! n = Some 0 /\ Forall (fun c => c <> 0) (take n str)) /\
  (ustring_len str = None <-> Forall (fun c => c <> 0) str).
Proof.
  revert n. induction str as [| c str IH]; intros n.
  - cbn. split; split; try discriminate; try constructor.
    intros [H _]. discriminate.
  - cbn [ustring_len]. destruct (Z.eqb_spec c 0) as [-> | Hc].
    + split; split.
      * intros [= <-]. split; [reflexivity | constructor].
      * intros [Hn Hall]. destruct n as [| n]; [reflexivity |].
        cbn in Hall. inversion Hall; congruence.
      * discriminate.
      * intros Hall. inversion Hall; congruence.
    + split; split.
      * destruct (ustring_len str) as [m |] eqn:Hm; [| discriminate].
        intros [= <-]. destruct (proj1 (proj1 (IH m)) eq_refl) as [Hz Hall].
        split; [exact Hz | cbn; constructor; assumption].
      * intros [Hn Hall]. destruct n as [| n]; [cbn in Hn; congruence |].
        cbn in Hn, Hall. inversion Hall as [| ? ? _ Hall']; subst.
        rewrite (proj2 (proj1 (IH n)) (conj Hn Hall')). reflexivity.
      * destruct (ustring_len str) as [m |] eqn:Hm; [discriminate |].
        intros _. constructor; [exact Hc |]. apply (proj2 (IH 0%nat)). reflexivity.
      * intros Hall. inversion Hall as [| ? ? _ Hall']; subst.
        rewrite (proj2 (proj2 (IH 0%nat)) Hall'). reflexivity.
Qed.

Lemma ustring_len_first_zero_witness :
  ustring_len [5; 7; 0; 9; 0] = Some 2%nat /\ ustring_len [5; 7; 9] = None.
Proof.
  split.
  - apply (ustring_len_first_zero [5; 7; 0; 9; 0] 2).
    split; [reflexivity | repeat constructor; discriminate].
  - apply (ustring_len_first_zero [5; 7; 9] 0).
    repeat constructor; discriminate.
Defined.

Lemma u32_diff (a b : Z) :
  0 <= a < 2^32 -> 0 <= b < 2^32 ->
  Int.u32 (a - b) = (if a <? b then a - b + 2^32 else a - b).
Proof.
  intros Ha Hb. unfold Int.u32. destruct (Z.ltb_spec a b).
  - rewrite <- (Z.mod_add (a - b) 1 (2^32)) by lia.
    rewrite Z.mul_1_l. apply Z.mod_small. lia.
  - apply Z.mod_small. lia.
Qed.

(** X3: [ustring_cmp] of two strings that agree up to a cell where they differ
    (the terminator of the shorter one, if one is a prefix of the other)
    returns the difference of the two cells modulo [2^32]: a positive
    number also when the left cell is the smaller one. *)
Theorem ustring_cmp_first_difference (p r1 r2 : list Z) (a b : Z) :
  Forall (fun c => c <> 0) p ->
  0 <= a < 2^32 -> 0 <= b < 2^32 -> a <> b ->
  ustring_cmp (p ++ a :: r1) (p ++ b :: r2)
  = Some (if a <? b then a - b + 2^32 else a - b) /\
  0 < (if a <? b then a - b + 2^32 else a - b) < 2^32.
Proof.
  intros Hp Ha Hb Hab. split.
  - induction Hp as [| c p Hc _ IH].
    + cbn [app ustring_cmp]. rewrite <- u32_diff by assumption.
      destruct (Z.eqb_spec a 0); [reflexivity |].
      destruct (Z.eqb_spec a b); [contradiction | reflexivity].
    + cbn [app ustring_cmp]. destruct (Z.eqb_spec c 0); [contradiction |].
      rewrite Z.eqb_refl. exact IH.
  - destruct (Z.ltb_spec a b); lia.
Qed.

Lemma ustring_cmp_first_difference_witness :
  ustring_cmp ([97; 98] ++ 99 :: [0]) ([97; 98] ++ 100 :: [0])
  = Some (2^32 - 1).
Proof.
  apply (ustring_cmp_first_difference [97; 98] [0] [0] 99 100).
  - repeat constructor; discriminate.
  - lia.
  - lia.
  - discriminate.
Defined.

(** X2: On zero-terminated strings of [uint32_t] cells [ustring_cmp] returns a
    number in [[0, 2^32)], never a negative one, and returns 0 exactly when
    the two strings are equal. *)
Theorem ustring_cmp_zero_iff_equal (s1 r1 s2 r2 : list Z) :
  Forall (fun c => 0 < c < 2^32) s1 ->
  Forall (fun c => 0 < c < 2^32) s2 ->
  exists d : Z,
    ustring_cmp (s1 ++ 0 :: r1) (s2 ++ 0 :: r2) = Some d /\
    0 <= d < 2^32 /\
    (d = 0 <-> s1 = s2).
Proof.
  intros H1. revert s2. induction H1 as [| a s1 Ha _ IH]; intros s2 H2.
  - destruct H2 as [| b s2 Hb _].
    + exists 0. repeat split; lia.
    + exists (2^32 - b). cbn [app ustring_cmp Z.eqb].
      rewrite u32_diff by lia. destruct (Z.ltb_spec 0 b); [| lia].
      split; [f_equal; lia |]. split; [lia |].
      split; [lia | discriminate].
  - destruct H2 as [| b s2 Hb H2].
    + exists a. cbn [app ustring_cmp].
      destruct (Z.eqb_spec a 0); [lia |]. destruct (Z.eqb_spec a 0); [lia |].
      rewrite u32_diff by lia. destruct (Z.ltb_spec a 0); [lia |].
      split; [f_equal; lia |]. split; [lia |]. split; [lia | discriminate].
    + cbn [app ustring_cmp]. destruct (Z.eqb_spec a 0); [lia |].
      destruct (Z.eqb_spec a b) as [-> | Hab].
      * destruct (IH s2 H2) as [d [Hd [Hr Hiff]]].
        exists d. split; [exact Hd |]. split; [exact Hr |].
        rewrite Hiff. split; [congruence | intros [= ->]; reflexivity].
      * exists (if a <? b then a - b + 2^32 else a - b).
        rewrite u32_diff by lia.
        split; [reflexivity |]. split; [destruct (Z.ltb_spec a b); lia |].
        split; [destruct (Z.ltb_spec a b); lia | congruence].
Qed.

Lemma ustring_cmp_zero_iff_equal_witness :
  exists d : Z,
    ustring_cmp ([104; 105] ++ 0 :: [7]) ([104; 105] ++ 0 :: []) = Some d /\
    0 <= d < 2^32 /\
    (d = 0 <-> [104; 105] = [104; 105]).
Proof.
  apply (ustring_cmp_zero_iff_equal [104; 105] [7] [104; 105] []);
    repeat constructor; lia.
Defined.

End UstringMore.

(** * Further properties of the UTF-8 functions *)

Section Utf8More.

Lemma put_unicode_shape (c : Z) :
  0 <= c < AUGMENT_CHAR ->
  exists (b0 : Z) (bs : list Z),
    put_unicode c = b0 :: bs /\
    0 <= b0 < 256 /\ (b0 < 0x80 \/ 0xC0 <= b0) /\ (b0 = 0 <-> c = 0) /\
    Forall (fun b => 0x80 <= b < 0xC0) bs /\
    Z.of_nat (length bs) = (if c <? 0x80 then 0 else if c <? 0x800 then 1
                            else if c <? 0x10000 then 2 else 3).
Proof.
  unfold AUGMENT_CHAR. intros Hc.
  destruct (Z.ltb_spec c 0x80).
  { rewrite put_unicode_1 by lia. exists c, []. repeat split; (lia || constructor). }
  destruct (Z.ltb_spec c 0x800).
  { rewrite put_unicode_2 by lia. eexists _, _. split; [reflexivity |].
    repeat split; try (repeat constructor); Z.div_mod_to_equations; lia. }
  destruct (Z.ltb_spec c 0x10000).
  { rewrite put_unicode_3 by lia. eexists _, _. split; [reflexivity |].
    repeat split; try (repeat constructor); Z.div_mod_to_equations; lia. }
  rewrite put_unicode_4 by lia. eexists _, _. split; [reflexivity |].
  repeat split; try (repeat constructor); Z.div_mod_to_equations; lia.
Qed.


(** X4: For a code point below [AUGMENT_CHAR], [put_unicode] writes one to four
    bytes according to the size of the code point: a lead byte that is no
    continuation byte, followed by continuation bytes only.  A zero byte is
    written for code point 0 alone. *)
Theorem put_unicode_well_formed (c : Z) :
  0 <= c < AUGMENT_CHAR ->
  exists (b0 : Z) (bs : list Z),
    put_unicode c = b0 :: bs /\
    0 <= b0 < 256 /\ (b0 < 0x80 \/ 0xC0 <= b0) /\ (b0 = 0 <-> c = 0) /\
    Forall (fun b => 0x80 <= b < 0xC0) bs /\
    Z.of_nat (length bs) = (if c <? 0x80 then 0 else if c <? 0x800 then 1
                            else if c <? 0x10000 then 2 else 3).
Proof. apply put_unicode_shape. Qed.

Lemma put_unicode_well_formed_witness :
  exists (b0 : Z) (bs : list Z),
    put_unicode 0x3B1 = b0 :: bs /\
    0 <= b0 < 256 /\ (b0 < 0x80 \/ 0xC0 <= b0) /\ (b0 = 0 <-> 0x3B1 = 0) /\
    Forall (fun b => 0x80 <= b < 0xC0) bs /\
    Z.of_nat (length bs) = 1.
Proof. apply (put_unicode_well_formed 0x3B1). unfold AUGMENT_CHAR. lia. Defined.

(** X5: The encoding is uniquely decodable: two encoded code points followed by
    anything agree as byte sequences only if the code points and what
    follows them agree. *)
Theorem put_unicode_prefix_free (c1 c2 : Z) (r1 r2 : list Z) :
  0 <= c1 < AUGMENT_CHAR -> 0 <= c2 < AUGMENT_CHAR ->
  put_unicode c1 ++ r1 = put_unicode c2 ++ r2 ->
  c1 = c2 /\ r1 = r2.
Proof.
  intros H1 H2 Heq.
  pose proof (eat_utf8_encoded c1 r1 H1) as E1.
  pose proof (eat_utf8_encoded c2 r2 H2) as E2.
  rewrite Heq, E2 in E1. injection E1 as Hc _. subst c2.
  split; [reflexivity |]. exact (app_inv_head _ _ _ Heq).
Qed.

Lemma put_unicode_prefix_free_witness :
  0x3B1 = 0x3B1 /\ [65; 0] = [65; 0].
Proof.
  apply (put_unicode_prefix_free 0x3B1 0x3B1 [65; 0] [65; 0]);
    (unfold AUGMENT_CHAR; lia) || reflexivity.
Defined.

Lemma decoded_2 (b0 b1 : Z) :
  0 <= b0 < 256 -> 0 <= b1 < 256 ->
  0 <= Z.lor (Z.shiftl (Z.land b0 0x1F) 6) (Z.land b1 0x3F) < 0x800.
Proof.
  intros H0 H1. bits_to_arith.
  rewrite (lor_add (_ * 64) _ 64 6) by (reflexivity || Z.div_mod_to_equations; lia).
  Z.div_mod_to_equations; lia.
Qed.

Lemma decoded_3 (b0 b1 b2 : Z) :
  0 <= b0 < 256 -> 0 <= b1 < 256 -> 0 <= b2 < 256 ->
  0 <= Z.lor (Z.lor (Z.shiftl (Z.land b0 0x0F) 12) (Z.shiftl (Z.land b1 0x3F) 6))
             (Z.land b2 0x3F) < 0x10000.
Proof.
  intros H0 H1 H2. bits_to_arith.
  rewrite (lor_add (_ * 4096) (_ * 64) 4096 12)
    by (reflexivity || Z.div_mod_to_equations; lia).
  rewrite (lor_add (_ + _) _ 64 6) by (reflexivity || Z.div_mod_to_equations; lia).
  Z.div_mod_to_equations; lia.
Qed.

Lemma decoded_4 (b0 b1 b2 b3 : Z) :
  0 <= b0 < 256 -> 0 <= b1 < 256 -> 0 <= b2 < 256 -> 0 <= b3 < 256 ->
  0 <= Z.lor (Z.lor (Z.lor (Z.shiftl (Z.land b0 0x07) 18)
                            (Z.shiftl (Z.land b1 0x3F) 12))
                     (Z.shiftl (Z.land b2 0x3F) 6))
             (Z.land b3 0x3F) < 0x200000.
Proof.
  intros H0 H1 H2 H3. bits_to_arith.
  rewrite (lor_add (_ * 262144) (_ * 4096) 262144 18)
    by (reflexivity || Z.div_mod_to_equations; lia).
  rewrite (lor_add (_ + _) (_ * 64) 4096 12)
    by (reflexivity || Z.div_mod_to_equations; lia).
  rewrite (lor_add (_ + _) _ 64 6) by (reflexivity || Z.div_mod_to_equations; lia).
  Z.div_mod_to_equations; lia.
Qed.

(** X6: Whatever bytes it is given, [eat_utf8] returns a code point below
    [AUGMENT_CHAR] and advances by one to four bytes, all of them inside
    the memory it was given; if it prints, it prints the ill-formed message
    and returns 0. *)
Theorem eat_utf8_bounds (str : list Z) (c : Z) (n : nat) (out : list Z) :
  Forall (fun b => 0 <= b < 256) str ->
  eat_utf8 str = Some (c, n, out) ->
  0 <= c < AUGMENT_CHAR /\ (1 <= n <= 4)%nat /\ (n <= length str)%nat /\
  (out = [] \/ (out = ill_formed /\ c = 0)).
Proof.
  intros Hstr Heat. unfold eat_utf8 in Heat. unfold AUGMENT_CHAR.
  assert (Hbyte : forall i b, str !! i = Some b ->
                    0 <= b < 256 /\ (S i <= length str)%nat).
  { intros i b Hi. split.
    - rewrite Forall_lookup in Hstr. exact (Hstr i b Hi).
    - apply lookup_lt_Some in Hi. lia. }
  destruct (str !! 0%nat) as [b0 |] eqn:E0; [| discriminate].
  cbn [mbind option_bind] in Heat.
  destruct (Hbyte _ _ E0) as [R0 L0].
  destruct (b0 =? 0); [injection Heat as <- <- <-; repeat split; auto; lia |].
  destruct (Z.eqb_spec (Z.shiftr b0 7) 0) as [S7 |_].
  { injection Heat as <- <- <-. repeat split; auto; lia. }
  destruct (Z.shiftr b0 5 =? 6).
  { destruct (str !! 1%nat) as [b1 |] eqn:E1; [| discriminate].
    cbn [mbind option_bind] in Heat. destruct (Hbyte _ _ E1) as [R1 L1].
    destruct (Z.shiftr b1 6 =? 2); injection Heat as <- <- <-.
    - pose proof (decoded_2 b0 b1 R0 R1). repeat split; auto; lia.
    - repeat split; auto; lia. }
  destruct (Z.shiftr b0 4 =? 14).
  { destruct (str !! 1%nat) as [b1 |] eqn:E1; [| discriminate].
    cbn [mbind option_bind] in Heat. destruct (Hbyte _ _ E1) as [R1 L1].
    destruct (Z.shiftr b1 6 =? 2); [| injection Heat as <- <- <-; repeat split; auto; lia].
    destruct (str !! 2%nat) as [b2 |] eqn:E2; [| discriminate].
    cbn [mbind option_bind] in Heat. destruct (Hbyte _ _ E2) as [R2 L2].
    destruct (Z.shiftr b2 6 =? 2); injection Heat as <- <- <-.
    - pose proof (decoded_3 b0 b1 b2 R0 R1 R2). repeat split; auto; lia.
    - repeat split; auto; lia. }
  destruct (Z.shiftr b0 3 =? 30).
  { destruct (str !! 1%nat) as [b1 |] eqn:E1; [| discriminate].
    cbn [mbind option_bind] in Heat. destruct (Hbyte _ _ E1) as [R1 L1].
    destruct (Z.shiftr b1 6 =? 2); [| injection Heat as <- <- <-; repeat split; auto; lia].
    destruct (str !! 2%nat) as [b2 |] eqn:E2; [| discriminate].
    cbn [mbind option_bind] in Heat. destruct (Hbyte _ _ E2) as [R2 L2].
    destruct (Z.shiftr b2 6 =? 2); [| injection Heat as <- <- <-; repeat split; auto; lia].
    destruct (str !! 3%nat) as [b3 |] eqn:E3; [| discriminate].
    cbn [mbind option_bind] in Heat. destruct (Hbyte _ _ E3) as [R3 L3].
    destruct (Z.shiftr b3 6 =? 2); injection Heat as <- <- <-.
    - pose proof (decoded_4 b0 b1 b2 b3 R0 R1 R2 R3). repeat split; auto; lia.
    - repeat split; auto; lia. }
  injection Heat as <- <- <-. repeat split; auto; lia.
Qed.

Lemma eat_utf8_bounds_witness :
  0 <= 0x3B1 < AUGMENT_CHAR /\ (1 <= 2 <= 4)%nat /\
  (2 <= length [0xCE; 0xB1; 0])%nat /\
  (@nil Z = [] \/ (@nil Z = ill_formed /\ 0x3B1 = 0)).
Proof.
  apply (eat_utf8_bounds [0xCE; 0xB1; 0] 0x3B1 2 []).
  - repeat constructor; lia.
  - reflexivity.
Defined.

End Utf8More.

(** * Further properties of encoded strings *)

Section Utf8Strings.

Lemma eat_utf8_bad_lead (b0 : Z) (rest : list Z) :
  0x80 <= b0 < 0xC0 \/ 0xF8 <= b0 < 0x100 ->
  eat_utf8 (b0 :: rest) = Some (0, 1%nat, ill_formed).
Proof.
  intros Hb0. unfold eat_utf8. cbn [lookup list_lookup mbind option_bind].
  bits_to_arith.
  destruct (Z.eqb_spec b0 0); [lia |].
  destruct (Z.eqb_spec (b0 / 128) 0); [exfalso; Z.div_mod_to_equations; lia |].
  destruct (Z.eqb_spec (b0 / 32) 6); [exfalso; Z.div_mod_to_equations; lia |].
  destruct (Z.eqb_spec (b0 / 16) 14); [exfalso; Z.div_mod_to_equations; lia |].
  destruct (Z.eqb_spec (b0 / 8) 30); [exfalso; Z.div_mod_to_equations; lia |].
  reflexivity.
Qed.

(** X7: A byte that can start no character, a continuation byte or one from
    [0xF8] on, is consumed alone; a lead byte of a longer character
    followed by a byte that is no continuation byte is consumed together
    with that byte, whatever it is, the terminator included.  In both
    cases [eat_utf8] prints the ill-formed message and returns 0. *)
Theorem eat_utf8_ill_formed (b0 b1 : Z) (rest : list Z) :
  0 <= b1 < 256 ->
  (0x80 <= b0 < 0xC0 \/ 0xF8 <= b0 < 0x100 ->
   eat_utf8 (b0 :: rest) = Some (0, 1%nat, ill_formed)) /\
  (0xC0 <= b0 < 0xF8 -> ~ 0x80 <= b1 < 0xC0 ->
   eat_utf8 (b0 :: b1 :: rest) = Some (0, 2%nat, ill_formed)).
Proof.
  intros R1. split.
  - apply eat_utf8_bad_lead.
  - intros Hb0 Hb1. unfold eat_utf8. cbn [lookup list_lookup mbind option_bind].
    bits_to_arith.
    destruct (Z.eqb_spec b0 0); [lia |].
    destruct (Z.eqb_spec (b0 / 128) 0); [exfalso; Z.div_mod_to_equations; lia |].
    assert (Hb1' : b1 / 64 <> 2) by (Z.div_mod_to_equations; lia).
    destruct (Z.eqb_spec (b1 / 64) 2); [contradiction |].
    destruct (Z.eqb_spec (b0 / 32) 6); [reflexivity |].
    destruct (Z.eqb_spec (b0 / 16) 14); [reflexivity |].
    destruct (Z.eqb_spec (b0 / 8) 30); [reflexivity |].
    exfalso. Z.div_mod_to_equations; lia.
Qed.

Lemma eat_utf8_ill_formed_witness :
  eat_utf8 (0x80 :: [65; 0]) = Some (0, 1%nat, ill_formed) /\
  eat_utf8 (0xC3 :: 0 :: [65; 0]) = Some (0, 2%nat, ill_formed).
Proof.
  split.
  - apply (eat_utf8_ill_formed 0x80 0 [65; 0]); lia.
  - apply (eat_utf8_ill_formed 0xC3 0 [65; 0]); lia.
Defined.

(** [utf8_length] counts the encoded code points up to the first place
    where [eat_utf8] returns 0. *)
Lemma utf8_length_loop_until (cps tail : list Z) (k : nat) (out : list Z) :
  Forall (fun c => 0 < c < AUGMENT_CHAR) cps ->
  eat_utf8 tail = Some (0, k, out) ->
  forall (fuel i : nat),
    (length (concat (map put_unicode cps)) < fuel)%nat ->
    utf8_length_loop fuel (concat (map put_unicode cps) ++ tail) i
    = Some (i + length cps)%nat.
Proof.
  intros Hcps Htail. induction Hcps as [| c cps Hc _ IH]; intros fuel i Hfuel.
  - destruct fuel as [| fuel]; [cbn in Hfuel; lia |].
    cbn [map concat app utf8_length_loop]. rewrite Htail.
    cbn. f_equal. lia.
  - destruct fuel as [| fuel]; [lia |].
    cbn [map concat] in *. rewrite length_app in Hfuel.
    pose proof (put_unicode_length c ltac:(lia)) as Hlen.
    cbn [utf8_length_loop]. rewrite <- app_assoc.
    rewrite eat_utf8_encoded by lia. cbn [mbind option_bind].
    destruct (Z.eqb_spec c 0); [lia |].
    rewrite drop_app_length, IH by lia.
    cbn [length]. f_equal. lia.
Qed.

(** X8: What [ustring_str] prints for a string of code points below
    [AUGMENT_CHAR] contains no zero byte, and [utf8_length] of it, once
    terminated, is the [ustring_len] of the string, whatever follows the
    terminators in memory. *)
Theorem utf8_length_ustring_str (s rest rest' : list Z) :
  Forall (fun c => 0 < c < AUGMENT_CHAR) s ->
  exists out : list Z,
    ustring_str (s ++ 0 :: rest) = Some out /\
    Forall (fun b => 0 < b < 256) out /\
    utf8_length (out ++ 0 :: rest') = Some (length s) /\
    ustring_len (s ++ 0 :: rest) = Some (length s).
Proof.
  intros Hs.
  assert (Hnz : Forall (fun c => c <> 0) s).
  { eapply Forall_impl; [exact Hs |]. cbn. intros c Hc. lia. }
  exists (concat (map put_unicode s)).
  split; [apply ustring_str_terminated, Hnz |].
  split; [| split; [| apply ustring_len_terminated, Hnz]].
  - induction Hs as [| c s Hc _ IH]; [constructor |].
    cbn [map concat]. apply Forall_app. split; [| apply IH; inversion Hnz; assumption].
    destruct (put_unicode_shape c ltac:(lia)) as [b0 [bs [-> [R0 [_ [Hz [Hbs _]]]]]]].
    constructor; [lia |].
    eapply Forall_impl; [exact Hbs |]. cbn. intros b Hb. lia.
  - unfold utf8_length.
    rewrite (utf8_length_loop_until s (0 :: rest') 1 []); [reflexivity | exact Hs | reflexivity |].
    rewrite length_app. cbn. lia.
Qed.

Lemma utf8_length_ustring_str_witness :
  exists out : list Z,
    ustring_str ([0x45; 0x3B1; 0x1F596] ++ 0 :: [7]) = Some out /\
    Forall (fun b => 0 < b < 256) out /\
    utf8_length (out ++ 0 :: [9; 9]) = Some (length [0x45; 0x3B1; 0x1F596]) /\
    ustring_len ([0x45; 0x3B1; 0x1F596] ++ 0 :: [7])
    = Some (length [0x45; 0x3B1; 0x1F596]).
Proof.
  apply (utf8_length_ustring_str [0x45; 0x3B1; 0x1F596] [7] [9; 9]).
  repeat constructor; unfold AUGMENT_CHAR; lia.
Defined.

(** X9: [utf8_length] treats a byte that can start no character as the end of
    the string: the count stops there, and what follows is not counted. *)
Theorem utf8_length_stops_at_ill_formed (cps rest : list Z) (b : Z) :
  Forall (fun c => 0 < c < AUGMENT_CHAR) cps ->
  0x80 <= b < 0xC0 \/ 0xF8 <= b < 0x100 ->
  utf8_length (concat (map put_unicode cps) ++ b :: rest) = Some (length cps).
Proof.
  intros Hcps Hb. unfold utf8_length.
  rewrite (utf8_length_loop_until cps (b :: rest) 1 ill_formed);
    [reflexivity | exact Hcps | |].
  - apply eat_utf8_bad_lead, Hb.
  - rewrite length_app. cbn. lia.
Qed.

Lemma utf8_length_stops_at_ill_formed_witness :
  utf8_length (concat (map put_unicode [0x45; 0x3B1]) ++ 0x80 :: [65; 66; 0])
  = Some (length [0x45; 0x3B1]).
Proof.
  apply (utf8_length_stops_at_ill_formed [0x45; 0x3B1] [65; 66; 0] 0x80).
  - repeat constructor; unfold AUGMENT_CHAR; lia.
  - lia.
Defined.

Lemma peek_loop_S (n : nat) (str : list Z) (c : Z) (d : nat) :
  peek_loop (S n) str c d
  = '(c, k, _) ← eat_utf8 str; peek_loop n (drop k str) c (d + k).
Proof. reflexivity. Qed.

Lemma peek_loop_encoded (rest : list Z) (index : nat) :
  forall (cps : list Z) (c0 : Z) (d : nat) (c : Z),
    Forall (fun c => 0 <= c < AUGMENT_CHAR) cps ->
    cps !! index = Some c ->
    peek_loop (S index) (concat (map put_unicode cps) ++ rest) c0 d
    = Some (c, (d + length (concat (map put_unicode (take (S index) cps))))%nat).
Proof.
  induction index as [| index IH]; intros cps c0 d c Hcps Hc.
  - destruct cps as [| c' cps]; [discriminate |]. injection Hc as ->.
    inversion Hcps as [| ? ? Hc' _]; subst.
    rewrite peek_loop_S. cbn [map concat take]. rewrite <- app_assoc.
    rewrite eat_utf8_encoded by assumption. cbn [mbind option_bind peek_loop].
    rewrite app_nil_r. reflexivity.
  - destruct cps as [| c' cps]; [discriminate |]. cbn in Hc.
    inversion Hcps as [| ? ? Hc' Hcps']; subst.
    rewrite peek_loop_S. cbn [map concat]. rewrite <- app_assoc.
    rewrite eat_utf8_encoded by assumption. cbn [mbind option_bind].
    rewrite drop_app_length.
    rewrite (IH cps c' _ c Hcps' Hc).
    f_equal. f_equal.
    change (take (S (S index)) (c' :: cps)) with (c' :: take (S index) cps).
    cbn [map concat]. rewrite length_app. lia.
Qed.

(** X10: On the encoding of a sequence of code points below [AUGMENT_CHAR],
    [peek_unicode] returns the code point at [index] and sets [*delta] to
    the number of bytes of the code points up to and including it.  Zero
    code points are stepped over like any other: [peek_unicode] does not
    stop at a terminator. *)
Theorem peek_unicode_encoded (cps rest : list Z) (index : nat) (c : Z) :
  Forall (fun c => 0 <= c < AUGMENT_CHAR) cps ->
  cps !! index = Some c ->
  peek_unicode (concat (map put_unicode cps) ++ rest) index
  = Some (c, length (concat (map put_unicode (take (S index) cps)))).
Proof.
  intros Hcps Hc. unfold peek_unicode.
  rewrite (peek_loop_encoded rest index cps 0 0 c Hcps Hc). reflexivity.
Qed.

Lemma peek_unicode_encoded_witness :
  peek_unicode (concat (map put_unicode [0x45; 0; 0x1F596; 0x41]) ++ [0]) 2
  = Some (0x1F596, 6%nat).
Proof.
  apply (peek_unicode_encoded [0x45; 0; 0x1F596; 0x41] [0] 2 0x1F596).
  - repeat constructor; unfold AUGMENT_CHAR; lia.
  - reflexivity.
Defined.

End Utf8Strings.

(** * Further properties of the character functions *)

Section Characters.

(** X11: [escape_to_unicode] never returns one of the seven escape letters, and
    applying it twice is applying it once. *)
Theorem escape_to_unicode_image (c : Z) :
  ~ In (escape_to_unicode c)
      (map byte_of_ascii ["a"; "b"; "t"; "n"; "v"; "f"; "r"]%char) /\
  escape_to_unicode (escape_to_unicode c) = escape_to_unicode c.
Proof.
  unfold escape_to_unicode.
  repeat match goal with
  | |- context [Z.eqb c ?k] =>
      destruct (Z.eqb_spec c k) as [-> | ?];
      [split; [cbn; intros H; repeat (destruct H as [H | H]; [discriminate H |]); exact H
              | reflexivity] |]
  end.
  split.
  - cbn. intros H. repeat (destruct H as [H | H]; [congruence |]). exact H.
  - repeat match goal with
    | |- context [Z.eqb c ?k] => destruct (Z.eqb_spec c k); [contradiction |]
    end.
    reflexivity.
Qed.

Lemma put_unicode_inj (c1 c2 : Z) :
  0 <= c1 < AUGMENT_CHAR -> 0 <= c2 < AUGMENT_CHAR ->
  put_unicode c1 = put_unicode c2 -> c1 = c2.
Proof.
  intros H1 H2 Heq.
  pose proof (eat_utf8_encoded c1 [] H1) as E1.
  pose proof (eat_utf8_encoded c2 [] H2) as E2.
  rewrite Heq, E2 in E1. injection E1 as Hc. congruence.
Qed.

(** X12: [unicode_str] prints the same bytes for two different code points up
    to [AUGMENT_CHAR] only when one is a marked code point and the other
    the glyph that stands for it: 0 and U+2300, or [AUGMENT_CHAR] and
    U+1F596. *)
Theorem unicode_str_collisions (c1 c2 : Z) :
  0 <= c1 <= AUGMENT_CHAR -> 0 <= c2 <= AUGMENT_CHAR -> c1 <> c2 ->
  (unicode_str c1 = unicode_str c2 <->
   (c1 = 0 /\ c2 = 0x2300) \/ (c1 = 0x2300 /\ c2 = 0) \/
   (c1 = AUGMENT_CHAR /\ c2 = 0x1F596) \/ (c1 = 0x1F596 /\ c2 = AUGMENT_CHAR)).
Proof.
  intros H1 H2 Hne.
  assert (Hglyph : forall c, 0 <= c <= AUGMENT_CHAR ->
            exists g, unicode_str c = put_unicode g /\ 0 <= g < AUGMENT_CHAR /\
                      g = (if c =? 0 then 0x2300
                           else if c =? AUGMENT_CHAR then 0x1F596 else c)).
  { intros c Hc. unfold unicode_str.
    destruct (Z.eqb_spec c 0); [eexists; repeat split; unfold AUGMENT_CHAR; lia |].
    destruct (Z.eqb_spec c AUGMENT_CHAR);
      [eexists; repeat split; unfold AUGMENT_CHAR; lia |].
    exists c. repeat split; lia. }
  destruct (Hglyph c1 H1) as [g1 [-> [R1 G1]]].
  destruct (Hglyph c2 H2) as [g2 [-> [R2 G2]]].
  unfold AUGMENT_CHAR in *.
  split.
  - intros Heq. apply (put_unicode_inj g1 g2 R1 R2) in Heq.
    destruct (Z.eqb_spec c1 0), (Z.eqb_spec c2 0),
      (Z.eqb_spec c1 0x200000), (Z.eqb_spec c2 0x200000); lia.
  - intros Hcase. f_equal.
    destruct (Z.eqb_spec c1 0), (Z.eqb_spec c2 0),
      (Z.eqb_spec c1 0x200000), (Z.eqb_spec c2 0x200000); lia.
Qed.

Lemma unicode_str_collisions_witness :
  unicode_str 0 = unicode_str 0x2300 /\ unicode_str 0x41 <> unicode_str 0x42.
Proof.
  split.
  - apply (unicode_str_collisions 0 0x2300); unfold AUGMENT_CHAR; lia.
  - intros Heq.
    apply (unicode_str_collisions 0x41 0x42) in Heq; unfold AUGMENT_CHAR in *; lia.
Defined.

Lemma hex_upper_printable (d : Hexadecimal.uint) :
  Forall (fun b => 0x30 <= b <= 0x39 \/ 0x41 <= b <= 0x46) (hex_upper d).
Proof.
  induction d; cbn [hex_upper]; constructor;
    (assumption || (unfold byte_of_ascii; simpl; lia)).
Qed.

Lemma fmt_hex_upper_digits (x : Z) :
  fmt_hex_upper x <> [] /\
  Forall (fun b => 0x30 <= b <= 0x39 \/ 0x41 <= b <= 0x46) (fmt_hex_upper x).
Proof.
  unfold fmt_hex_upper.
  destruct (N.to_hex_uint (Z.to_N x)) eqn:Hd;
    try (split; [discriminate | rewrite <- Hd at 1; apply hex_upper_printable]).
  split; [discriminate | repeat constructor; unfold byte_of_ascii; simpl; lia].
Qed.

(** X13: [unicode_ascii_or_hex_str] prints visible ASCII only: the code point
    itself when it is one of [0x21 .. 0x7E], otherwise a backslash, an [x]
    and capital hexadecimal digits; a space, a control character or a
    code point outside ASCII never reaches the output as it is. *)
Theorem unicode_ascii_or_hex_str_visible (c : Z) :
  Forall (fun b => 0x21 <= b <= 0x7E) (unicode_ascii_or_hex_str c) /\
  (0x21 <= c <= 0x7E -> unicode_ascii_or_hex_str c = [c]) /\
  (~ 0x21 <= c <= 0x7E ->
   exists digits : list Z,
     unicode_ascii_or_hex_str c = byte_of_ascii "\" :: byte_of_ascii "x" :: digits /\
     digits <> [] /\
     Forall (fun b => 0x30 <= b <= 0x39 \/ 0x41 <= b <= 0x46) digits).
Proof.
  unfold unicode_ascii_or_hex_str.
  destruct (Z.leb_spec 0x21 c); destruct (Z.leb_spec c 0x7E); cbn [andb];
    try (rewrite put_unicode_1 by lia).
  1: { split; [repeat constructor; lia |]. split; [reflexivity | lia]. }
  all: destruct (fmt_hex_upper_digits c) as [Hne Hdig];
    (split; [| split; [lia |]]);
    [ constructor; [unfold byte_of_ascii; simpl; lia |];
      constructor; [unfold byte_of_ascii; simpl; lia |];
      eapply Forall_impl; [exact Hdig |]; cbn; intros b Hb; lia
    | intros _; exists (fmt_hex_upper c); split; [reflexivity | split; assumption] ].
Qed.

Lemma unicode_ascii_or_hex_str_visible_witness :
  unicode_ascii_or_hex_str 0x41 = [0x41] /\
  exists digits : list Z,
    unicode_ascii_or_hex_str 0x20 = byte_of_ascii "\" :: byte_of_ascii "x" :: digits /\
    digits <> [] /\
    Forall (fun b => 0x30 <= b <= 0x39 \/ 0x41 <= b <= 0x46) digits.
Proof.
  split.
  - apply (unicode_ascii_or_hex_str_visible 0x41). lia.
  - apply (unicode_ascii_or_hex_str_visible 0x20). lia.
Defined.

End Characters.

(** * Further properties of the numeric literals *)

Section ParseMore.

Variables (base : Z) (f : Z -> Z).

#[local] Instance eqm64_equiv' : Equivalence (eqm (2^64)) := eqm_setoid (2^64).
#[local] Instance eqm64_add' :
  Proper (eqm (2^64) ==> eqm (2^64) ==> eqm (2^64)) Z.add := Zplus_eqm (2^64).
#[local] Instance eqm64_mul' :
  Proper (eqm (2^64) ==> eqm (2^64) ==> eqm (2^64)) Z.mul := Zmult_eqm (2^64).

Lemma positional_value_app (g : Z -> Z) (s1 s2 : list Z) :
  positional_value base g (s1 ++ s2)
  = positional_value base g s1 * base ^ Z.of_nat (length s2)
    + positional_value base g s2.
Proof.
  induction s1 as [| c s1 IH].
  - cbn [app]. unfold positional_value at 2. cbn. lia.
  - cbn [app]. rewrite !positional_value_cons, IH, length_app.
    rewrite Nat2Z.inj_add, Z.pow_add_r by lia. ring.
Qed.

(** X14: Parsing the concatenation of two digit strings gives the value of the
    first, shifted by as many places as the second has digits, plus the
    value of the second, modulo [2^64]; and the empty string parses
    to 0. *)
Theorem ustring_parse_base_app (s1 s2 rest : list Z) :
  Forall (fun c => c <> 0) s1 ->
  Forall (fun c => c <> 0) s2 ->
  exists v1 v2 : Z,
    ustring_parse_base (s1 ++ 0 :: rest) base f = Some v1 /\
    ustring_parse_base (s2 ++ 0 :: rest) base f = Some v2 /\
    ustring_parse_base ((s1 ++ s2) ++ 0 :: rest) base f
    = Some ((v1 * base ^ Z.of_nat (length s2) + v2) mod 2^64) /\
    ustring_parse_base (0 :: rest) base f = Some 0.
Proof.
  intros H1 H2. eexists _, _.
  split; [apply ustring_parse_base_value, H1 |].
  split; [apply ustring_parse_base_value, H2 |].
  split; [| reflexivity].
  rewrite ustring_parse_base_value by (apply Forall_app; split; assumption).
  rewrite positional_value_app. f_equal.
  apply u64_eqm. unfold Int.u64. rewrite !(Zmod_eqm (2^64)). reflexivity.
Qed.

End ParseMore.

Lemma ustring_parse_base_app_witness :
  exists v1 v2 : Z,
    ustring_parse_base (bytes_of_string "12" ++ 0 :: []) 10 dec_digit_value = Some v1 /\
    ustring_parse_base (bytes_of_string "345" ++ 0 :: []) 10 dec_digit_value = Some v2 /\
    ustring_parse_base ((bytes_of_string "12" ++ bytes_of_string "345") ++ 0 :: [])
      10 dec_digit_value
    = Some ((v1 * 10 ^ Z.of_nat (length (bytes_of_string "345")) + v2) mod 2^64) /\
    ustring_parse_base (0 :: []) 10 dec_digit_value = Some 0.
Proof.
  apply (ustring_parse_base_app 10 dec_digit_value
           (bytes_of_string "12") (bytes_of_string "345") []);
    repeat constructor; discriminate.
Defined.

(** * Further properties of the allocating functions *)

Module HeapMore.
Import Heap.

Section Allocating.

Variable junk : nat -> Z.

Lemma fresh_lookup (h : heap) (block : list Z) :
  h !! length h = None /\ (h ++ [block]) !! length h = Some block /\
  (forall (b : nat) (cells : list Z),
      h !! b = Some cells -> (h ++ [block]) !! b = Some cells).
Proof.
  split; [apply lookup_ge_None; lia |]. split.
  - rewrite lookup_app_r, Nat.sub_diag by lia. reflexivity.
  - intros b cells Hb. rewrite lookup_app_l; [exact Hb |].
    apply lookup_lt_Some in Hb. exact Hb.
Qed.

(** X15: [ustring_clone] leaves no cell of the new allocation uninitialised and
    allocates no cell more than it writes: whatever [malloc] hands out,
    the new allocation holds exactly the string and its terminator, and
    nothing of what follows the terminator of the source. *)
Theorem ustring_clone_exact
    (junk' : nat -> Z) (h : heap) (string : ptr) (s rest : list Z) :
  fits_address_space h ->
  view h string = Some (s ++ 0 :: rest) ->
  Forall (fun c => c <> 0) s ->
  exists (h' : heap) (copy : ptr),
    ustring_clone junk h string = Some (h', copy) /\
    ustring_clone junk' h string = Some (h', copy) /\
    h' !! blk copy = Some (s ++ [0]) /\
    length h' = S (length h).
Proof.
  intros Hfit Hview Hs.
  exists (h ++ [s ++ [0]]), {| blk := length h; off := 0 |}.
  split; [apply (HeapFacts.ustring_clone_result junk h string s rest); assumption |].
  split; [apply (HeapFacts.ustring_clone_result junk' h string s rest); assumption |].
  split; [exact (proj1 (proj2 (fresh_lookup h (s ++ [0])))) |].
  rewrite length_app. cbn. lia.
Qed.

(** X16: [ustring_from_unicode] returns a new allocation of two cells, the code
    point and a terminator, and leaves every other allocation as it is.
    The string has length 1, or length 0 when the code point is 0. *)
Theorem ustring_from_unicode_string (h : heap) (c : Z) :
  exists (h' : heap) (str : ptr),
    ustring_from_unicode junk h c = Some (h', str) /\
    h !! blk str = None /\
    (forall (b : nat) (cells : list Z), h !! b = Some cells -> h' !! b = Some cells) /\
    view h' str = Some [c; 0] /\
    ustring_len_at h' str = Some (if c =? 0 then 0%nat else 1%nat).
Proof.
  exists (h ++ [[c; 0]]), {| blk := length h; off := 0 |}.
  destruct (fresh_lookup h [c; 0]) as [Hnew [Hblk Hold]].
  split; [| split; [exact Hnew | split; [exact Hold |]]].
  - unfold ustring_from_unicode, malloc.
    change (Z.to_nat (Int.u64 (2 * 4) / 4)) with 2%nat. cbn [seq map].
    pose proof (HeapFacts.store_fresh h [] (junk 0) [junk 1] c) as S0.
    cbn [app length] in S0. rewrite S0. cbn [mbind option_bind].
    pose proof (HeapFacts.store_fresh h [c] (junk 1) [] 0) as S1.
    cbn [app length] in S1. unfold next. cbn [blk off]. rewrite S1.
    reflexivity.
  - assert (Hview : view (h ++ [[c; 0]]) {| blk := length h; off := 0 |} = Some [c; 0]).
    { unfold view. cbn [blk off]. rewrite Hblk. reflexivity. }
    split; [exact Hview |].
    unfold ustring_len_at. rewrite Hview. cbn.
    destruct (c =? 0); reflexivity.
Qed.

Lemma substr_skip_encoded (rest : list Z) (n : nat) :
  forall cps : list Z,
    Forall (fun c => 0 <= c < AUGMENT_CHAR) cps ->
    (n <= length cps)%nat ->
    substr_skip n (concat (map put_unicode cps) ++ rest)
    = Some (concat (map put_unicode (drop n cps)) ++ rest).
Proof.
  induction n as [| n IH]; intros cps Hcps Hn; [reflexivity |].
  destruct cps as [| c cps]; [cbn in Hn; lia |].
  inversion Hcps as [| ? ? Hc Hcps']; subst.
  cbn [substr_skip map concat drop]. rewrite <- app_assoc.
  rewrite eat_utf8_encoded by assumption. cbn [mbind option_bind].
  rewrite drop_app_length. apply IH; [exact Hcps' | cbn in Hn; lia].
Qed.

Lemma substr_copy_encoded (h : heap) (rest : list Z) :
  forall (t done fresh tail : list Z),
    Forall (fun c => 0 <= c < AUGMENT_CHAR) t ->
    length fresh = length t ->
    substr_copy (length t) (h ++ [done ++ fresh ++ tail])
      {| blk := length h; off := length done |}
      (concat (map put_unicode t) ++ rest)
    = Some (h ++ [done ++ t ++ tail],
            {| blk := length h; off := (length done + length t)%nat |}).
Proof.
  induction t as [| c t IH]; intros done fresh tail Ht Hfresh.
  - destruct fresh; [| discriminate]. cbn. rewrite Nat.add_0_r. reflexivity.
  - destruct fresh as [| j fresh]; [discriminate |].
    inversion Ht as [| ? ? Hc Ht']; subst.
    cbn [length substr_copy map concat]. rewrite <- app_assoc.
    rewrite eat_utf8_encoded by assumption. cbn [mbind option_bind].
    cbn [app]. rewrite HeapFacts.store_fresh. cbn [mbind option_bind].
    rewrite drop_app_length.
    replace (next {| blk := length h; off := length done |})
      with {| blk := length h; off := length (done ++ [c]) |}
      by (unfold next; cbn; rewrite length_app, Nat.add_1_r; reflexivity).
    rewrite (IH (done ++ [c]) fresh tail Ht') by (cbn in Hfresh; lia).
    rewrite <- app_assoc, length_app. cbn. do 3 f_equal. lia.
Qed.

Lemma ustring_charstar_substr_value
    (h : heap) (cps rest : list Z) (start stop : Z) :
  Forall (fun c => 0 <= c < AUGMENT_CHAR) cps ->
  0 <= start -> start - 1 <= stop -> stop < Z.of_nat (length cps) ->
  stop - start + 1 <= Int.INT_MAX ->
  ustring_charstar_substr junk h (concat (map put_unicode cps) ++ rest) start stop
  = Some (h ++ [take (Z.to_nat (stop - start + 1)) (drop (Z.to_nat start) cps) ++ [0]],
          {| blk := length h; off := 0 |}).
Proof.
  intros Hcps Hstart Hstop Hlen Hint.
  set (n := Z.to_nat (stop - start + 1)).
  set (t := take n (drop (Z.to_nat start) cps)).
  assert (Ht : length t = n).
  { unfold t. rewrite length_take, length_drop. lia. }
  unfold ustring_charstar_substr. unfold Int.INT_MAX, Int.INT_MIN in *.
  rewrite decide_True by lia.
  unfold malloc, Int.u64. rewrite (Z.mod_small (stop - start + 1)) by lia.
  rewrite (Z.mod_small ((stop - start + 1 + 1) * 4)), Z.div_mul by lia.
  rewrite substr_skip_encoded by (assumption || lia).
  cbn [mbind option_bind]. rewrite decide_True by lia. fold n.
  replace (Z.to_nat (stop - start + 1 + 1)) with (S n) by lia.
  rewrite <- (take_drop n (drop (Z.to_nat start) cps)) at 1. fold t.
  rewrite map_app, concat_app, <- app_assoc.
  set (fresh := map junk (seq 0 (S n))).
  assert (Hfresh : exists f1 j, fresh = f1 ++ [j] /\ length f1 = length t).
  { exists (map junk (seq 0 n)), (junk n). split.
    - unfold fresh. rewrite seq_S, map_app. reflexivity.
    - rewrite length_map, length_seq. lia. }
  destruct Hfresh as [f1 [j [-> Hf1]]].
  rewrite <- Ht.
  pose proof (substr_copy_encoded h
                (concat (map put_unicode
                           (drop (length t) (drop (Z.to_nat start) cps))) ++ rest)
                t [] f1 [j]) as Hcopy.
  cbn [app length] in Hcopy.
  rewrite Hcopy; [| | exact Hf1].
  - cbn [mbind option_bind].
    pose proof (HeapFacts.store_fresh h t j [] 0) as Hst.
    rewrite Nat.add_0_l. rewrite Hst. cbn [mbind option_bind].
    rewrite app_nil_r. reflexivity.
  - unfold t. apply Forall_take, Forall_drop, Hcps.
Qed.

(** X17: On the encoding of a sequence of code points below [AUGMENT_CHAR],
    [ustring_charstar_substr] returns a new zero-terminated allocation with
    the code points at the indices [start] to [stop], both included, and
    the empty string when [stop] is [start - 1]; every other allocation is
    left as it is.  Zero code points inside the range are copied like any
    other. *)
Theorem ustring_charstar_substr_slice
    (h : heap) (cps rest : list Z) (start stop : Z) :
  Forall (fun c => 0 <= c < AUGMENT_CHAR) cps ->
  0 <= start -> start - 1 <= stop -> stop < Z.of_nat (length cps) ->
  stop - start + 1 <= Int.INT_MAX ->
  exists (h' : heap) (substr : ptr),
    ustring_charstar_substr junk h (concat (map put_unicode cps) ++ rest) start stop
    = Some (h', substr) /\
    h !! blk substr = None /\
    (forall (b : nat) (cells : list Z), h !! b = Some cells -> h' !! b = Some cells) /\
    view h' substr
    = Some (take (Z.to_nat (stop - start + 1)) (drop (Z.to_nat start) cps) ++ [0]).
Proof.
  intros Hcps Hstart Hstop Hlen Hint.
  eexists _, _. split; [apply ustring_charstar_substr_value; assumption |].
  destruct (fresh_lookup h
              (take (Z.to_nat (stop - start + 1)) (drop (Z.to_nat start) cps) ++ [0]))
    as [Hnew [Hblk Hold]].
  split; [exact Hnew | split; [exact Hold |]].
  unfold view. cbn [blk off]. rewrite Hblk. reflexivity.
Qed.

(** X18: Printing a string with [ustring_str] and reading the printed bytes back
    with [ustring_charstar_substr], from index 0 to its last index, gives
    the string again. *)
Theorem ustring_str_read_back (h : heap) (s rest : list Z) :
  Forall (fun c => 0 < c < AUGMENT_CHAR) s ->
  Z.of_nat (length s) <= Int.INT_MAX ->
  exists (out : list Z) (h' : heap) (substr : ptr),
    ustring_str (s ++ 0 :: rest) = Some out /\
    ustring_charstar_substr junk h (out ++ [0]) 0 (Z.of_nat (length s) - 1)
    = Some (h', substr) /\
    view h' substr = Some (s ++ [0]) /\
    ustring_cmp_at h' substr substr = Some 0.
Proof.
  intros Hs Hlen.
  assert (Hnz : Forall (fun c => c <> 0) s).
  { eapply Forall_impl; [exact Hs |]. cbn. intros c Hc. lia. }
  assert (Hcp : Forall (fun c => 0 <= c < AUGMENT_CHAR) s).
  { eapply Forall_impl; [exact Hs |]. cbn. intros c Hc. lia. }
  assert (Hview : view (h ++ [s ++ [0]]) {| blk := length h; off := 0 |}
                  = Some (s ++ [0])).
  { unfold view. cbn [blk off].
    rewrite (proj1 (proj2 (fresh_lookup h (s ++ [0])))). reflexivity. }
  eexists _, _, _.
  split; [apply ustring_str_terminated, Hnz |].
  split; [| split; [exact Hview |]].
  - rewrite ustring_charstar_substr_value by (assumption || lia).
    replace (Z.to_nat (Z.of_nat (length s) - 1 - 0 + 1)) with (length s) by lia.
    cbn [Z.to_nat drop]. rewrite firstn_all. reflexivity.
  - unfold ustring_cmp_at. rewrite Hview. cbn [mbind option_bind].
    apply (ustring_cmp_equal s [] []), Hnz.
Qed.

(** X19: With bounds in the wrong order, [stop] below [start - 1],
    [ustring_charstar_substr] does not return an empty string: the length
    it computes wraps around to a huge [size_t], and the copy loop runs
    into undefined behaviour. *)
Theorem ustring_charstar_substr_reversed
    (h : heap) (str : list Z) (start stop : Z) :
  stop < start - 1 ->
  ustring_charstar_substr junk h str start stop = None.
Proof.
  intros Hrev. unfold ustring_charstar_substr.
  destruct (decide _) as [Hint |]; [| reflexivity].
  unfold Int.INT_MIN, Int.INT_MAX in Hint.
  assert (Hwrap : Int.u64 (stop - start + 1) = stop - start + 1 + 2^64).
  { unfold Int.u64. rewrite <- (Z.mod_add _ 1 (2^64)) by lia.
    rewrite Z.mul_1_l. apply Z.mod_small. lia. }
  rewrite Hwrap. unfold malloc.
  destruct (substr_skip _ _); [| reflexivity].
  cbn [mbind option_bind].
  rewrite decide_False by (unfold Int.INT_MAX; lia). reflexivity.
Qed.

End Allocating.

Lemma ustring_clone_exact_witness :
  exists (h' : heap) (copy : ptr),
    ustring_clone (fun _ => 77) [[1; 2; 3; 0; 5]] {| blk := 0; off := 1 |}
    = Some (h', copy) /\
    ustring_clone (fun _ => 0) [[1; 2; 3; 0; 5]] {| blk := 0; off := 1 |}
    = Some (h', copy) /\
    h' !! blk copy = Some ([2; 3] ++ [0]) /\
    length h' = S (length [[1; 2; 3; 0; 5]]).
Proof.
  apply (ustring_clone_exact (fun _ => 77) (fun _ => 0) [[1; 2; 3; 0; 5]]
           {| blk := 0; off := 1 |} [2; 3] [5]).
  - repeat constructor; cbn; unfold SIZE_MAX; lia.
  - reflexivity.
  - repeat constructor; discriminate.
Defined.

Lemma ustring_charstar_substr_slice_witness :
  exists (h' : heap) (substr : ptr),
    ustring_charstar_substr (fun _ => 77) [[1; 0]]
      (concat (map put_unicode [0x45; 0x3B1; 0x1F596; 0x41]) ++ [0]) 1 2
    = Some (h', substr) /\
    [[1; 0]] !! blk substr = None /\
    (forall (b : nat) (cells : list Z),
        [[1; 0]] !! b = Some cells -> h' !! b = Some cells) /\
    view h' substr = Some ([0x3B1; 0x1F596] ++ [0]).
Proof.
  apply (ustring_charstar_substr_slice (fun _ => 77) [[1; 0]]
           [0x45; 0x3B1; 0x1F596; 0x41] [0] 1 2).
  - repeat constructor; unfold AUGMENT_CHAR; lia.
  - lia.
  - lia.
  - cbn. lia.
  - unfold Int.INT_MAX. lia.
Defined.

Lemma ustring_str_read_back_witness :
  exists (out : list Z) (h' : heap) (substr : ptr),
    ustring_str ([0x45; 0x3B1; 0x1F596] ++ 0 :: [7]) = Some out /\
    ustring_charstar_substr (fun _ => 77) [[1; 0]] (out ++ [0]) 0
      (Z.of_nat (length [0x45; 0x3B1; 0x1F596]) - 1)
    = Some (h', substr) /\
    view h' substr = Some ([0x45; 0x3B1; 0x1F596] ++ [0]) /\
    ustring_cmp_at h' substr substr = Some 0.
Proof.
  apply (ustring_str_read_back (fun _ => 77) [[1; 0]] [0x45; 0x3B1; 0x1F596] [7]).
  - repeat constructor; unfold AUGMENT_CHAR; lia.
  - unfold Int.INT_MAX. cbn. lia.
Defined.

Lemma ustring_charstar_substr_reversed_witness :
  ustring_charstar_substr (fun _ => 77) [[1; 0]] [65; 66; 67; 0] 2 0 = None.
Proof. apply (ustring_charstar_substr_reversed (fun _ => 77) [[1; 0]] [65; 66; 67; 0] 2 0). lia. Defined.

End HeapMore.

(** * Further properties of reduction.c *)

Module ReductionMore.
Import Reduction.

Lemma query_ret {A : Type} (x : A) : query (mret x : M A).
Proof. intros w w' y [= _ <-]. reflexivity. Qed.

Lemma query_undefined {A : Type} : query (@undefined A).
Proof. intros w w' y. discriminate. Qed.

Lemma query_bind {A B : Type} (m : M A) (k : A -> M B) :
  query m -> (forall x, query (k x)) -> query (m ≫= k).
Proof.
  intros Hm Hk w w' y. rewrite ReductionFacts.bind_unfold.
  destruct (m w) as [[x w1] |] eqn:Hmw; [| discriminate].
  intros Hkw. rewrite (Hk x w1 w' y Hkw). exact (Hm w w1 x Hmw).
Qed.

Lemma query_load (r : nat) : query (load r).
Proof.
  intros w w' x. unfold load.
  destruct (heap w !! r) as [[v |] |]; try discriminate.
  intros [= _ <-]. reflexivity.
Qed.

Lemma query_lift {A : Type} (o : option A) : query (lift o).
Proof. destruct o; [apply query_ret | apply query_undefined]. Qed.

Lemma query_int_add (a b : Z) : query (int_add a b).
Proof.
  unfold int_add. destruct (decide _); [apply query_ret | apply query_undefined].
Qed.

Ltac prove_query :=
  repeat first
    [ apply query_bind; [| intros ?]
    | apply query_ret | apply query_undefined | apply query_load
    | apply query_lift | apply query_int_add ].

Section Queries.

Variable metaparser_get_symbol : Z -> obj.
Variable hash_uint_sequence : list Z -> Z -> Z.

(** X20: [reduction_strlen], [reduction_equals] and [reduction_hash] are pure
    queries: on initialised records [reduction_equals] and
    [reduction_hash] return in the world they were called in, and whenever
    [reduction_strlen] returns, no record has changed and nothing has been
    printed: it measures the rendering without printing it. *)
Theorem reduction_queries_change_nothing
    (w : world) (r other : nat) (red red' : reduction) :
  heap w !! r = Some (Some red) ->
  heap w !! other = Some (Some red') ->
  (exists eq : bool, reduction_equals r other w = Some (eq, w)) /\
  (exists hash : Z, reduction_hash hash_uint_sequence r w = Some (hash, w)) /\
  (forall (width : Z) (w' : world),
      reduction_strlen metaparser_get_symbol r w = Some (width, w') -> w' = w).
Proof.
  intros Hr Hother. split; [| split].
  - eexists. apply (ReductionFacts.reduction_equals_value w r other red red' Hr Hother).
  - eexists. apply (ReductionFacts.reduction_hash_value hash_uint_sequence w r red Hr).
  - intros x w' Hrun.
    assert (Hq : query (reduction_strlen metaparser_get_symbol r))
      by (unfold reduction_strlen; prove_query).
    exact (Hq w w' x Hrun).
Qed.

End Queries.

Lemma reduction_queries_change_nothing_witness :
  (exists eq : bool,
      reduction_equals 0 1
        (mk_world [Some (mk_reduction 7 3); Some (mk_reduction 2 1)] [82; 40])
      = Some (eq, mk_world [Some (mk_reduction 7 3); Some (mk_reduction 2 1)] [82; 40])) /\
  (exists hash : Z,
      reduction_hash (fun seq n => fold_right Z.add n seq) 0
        (mk_world [Some (mk_reduction 7 3); Some (mk_reduction 2 1)] [82; 40])
      = Some (hash, mk_world [Some (mk_reduction 7 3); Some (mk_reduction 2 1)] [82; 40])).
Proof.
  destruct (reduction_queries_change_nothing
              (fun _ => mk_obj (bytes_of_string "Expr" ++ [0]))
              (fun seq n => fold_right Z.add n seq)
              (mk_world [Some (mk_reduction 7 3); Some (mk_reduction 2 1)] [82; 40])
              0 1 (mk_reduction 7 3) (mk_reduction 2 1) eq_refl eq_refl)
    as [Heq [Hhash _]].
  split; [exact Heq | exact Hhash].
Defined.

Section Construction.

(** X21: Two records built one after the other by [new_reduction] live at
    different addresses and both keep their fields; the records that
    existed before are unchanged and nothing is printed.
    [reduction_equals] on the two is true exactly when both arguments were
    the same. *)
Theorem new_reduction_twice (w : world) (h1 l1 h2 l2 : Z) :
  exists (r1 r2 : nat) (w' : world),
    (r1 ← new_reduction h1 l1; r2 ← new_reduction h2 l2; mret (r1, r2)) w
    = Some ((r1, r2), w') /\
    r1 <> r2 /\
    heap w !! r1 = None /\ heap w !! r2 = None /\
    eval (load r1) w' = Some {| head_idx := h1; length := l1 |} /\
    eval (load r2) w' = Some {| head_idx := h2; length := l2 |} /\
    (forall (r : nat) (red : option reduction),
        heap w !! r = Some red -> heap w' !! r = Some red) /\
    stdout w' = stdout w /\
    eval (reduction_equals r1 r2) w' = Some ((l1 =? l2) && (h1 =? h2)).
Proof.
  set (red1 := {| head_idx := h1; length := l1 |}).
  set (red2 := {| head_idx := h2; length := l2 |}).
  set (w' := {| heap := (heap w ++ [Some red1]) ++ [Some red2]; stdout := stdout w |}).
  assert (H1 : heap w' !! List.length (heap w) = Some (Some red1)).
  { cbn. rewrite lookup_app_l by (rewrite length_app; cbn; lia).
    rewrite lookup_app_r, Nat.sub_diag by lia. reflexivity. }
  assert (H2 : heap w' !! List.length (heap w ++ [Some red1]) = Some (Some red2)).
  { cbn. rewrite lookup_app_r, Nat.sub_diag by lia. reflexivity. }
  exists (List.length (heap w)), (List.length (heap w ++ [Some red1])), w'.
  split.
  { rewrite ReductionFacts.bind_unfold, ReductionFacts.new_reduction_value.
    rewrite ReductionFacts.bind_unfold, ReductionFacts.new_reduction_value.
    reflexivity. }
  split; [rewrite length_app; cbn; lia |].
  split; [apply lookup_ge_None; lia |].
  split; [apply lookup_ge_None; rewrite length_app; lia |].
  split; [unfold eval; rewrite (ReductionFacts.load_valid _ _ _ H1); reflexivity |].
  split; [unfold eval; rewrite (ReductionFacts.load_valid _ _ _ H2); reflexivity |].
  split.
  { intros r red Hr. cbn. pose proof (lookup_lt_Some _ _ _ Hr).
    rewrite lookup_app_l by (rewrite length_app; lia).
    rewrite lookup_app_l by lia. exact Hr. }
  split; [reflexivity |].
  unfold eval. rewrite (ReductionFacts.reduction_equals_value _ _ _ _ _ H1 H2).
  reflexivity.
Qed.

End Construction.

End ReductionMore.
